(** * Frame loops of the lesson-10 homework, embedded and verified

    The two scripts under [lesson_10/homework] are glue around OpenCV:
    [optical_flow_demo.py] (Lucas-Kanade flow over a bounded history of
    grayscale frames) and [tracker_compare.py] (three object trackers
    drawn side by side).  The vision library is not part of the
    repository, so every call into it is modelled by what the script
    can observe of it:

    - a call that returns data (a frame read, the detected corners, the
      flow result, a tracker update, a key code) takes its reply from an
      environment record, one per loop iteration;
    - a call that acts on the outside world (drawing on the output
      frame, showing it, printing, writing the video file) is recorded
      as an event of the run's trace, in program order; where the
      arrays are modelled (tracker_compare.py) a drawing call also
      changes the array it draws on, through the library's rasterisers,
      which are parameters of the model;
    - what Python and numpy themselves do (slices, boolean-mask
      indexing, slice assignment with broadcasting, the bounded deque,
      iteration over [None], exceptions) is modelled by executable
      definitions.

    A run is a pair of the trace emitted so far and either a value or
    the exception that stopped it. *)

From Stdlib Require Import ZArith Lia.
From stdpp Require Import base list strings gmap.

Open Scope Z_scope.

(** ** Python-level plumbing shared by both scripts *)

(** The exceptions the scripts can meet, with the interpreter's message. *)
Inductive exn :=
| TypeError (msg : string)
| IndexError (msg : string)
| ValueError (msg : string)
| AttributeError (msg : string).

Inductive result (A : Type) :=
| Ok (a : A)
| Raise (e : exn).
Arguments Ok {A} a.
Arguments Raise {A} e.

(** A computation over events of type [E]: the events emitted, then the
    value or the exception.  Events emitted before an exception stay in
    the trace. *)
Definition prog (E A : Type) : Type := (list E * result A)%type.

Definition raise {E A} (e : exn) : prog E A := ([], Raise e).
Definition emit {E} (ev : E) : prog E unit := ([ev], Ok tt).
Definition lift {E A} (r : result A) : prog E A := ([], r).

Definition bind {E A B} (k : A → prog E B) (m : prog E A) : prog E B :=
  match m with
  | (t, Ok a) => let '(t', r) := k a in (t ++ t', r)
  | (t, Raise e) => (t, Raise e)
  end.

#[global] Instance prog_mret {E} : MRet (prog E) := fun A a => ([], Ok a).
#[global] Instance prog_bind {E} : MBind (prog E) := fun A B => bind.

Definition trace_of {E A} (m : prog E A) : list E := fst m.
Definition outcome_of {E A} (m : prog E A) : result A := snd m.

(** [cv2.waitKey(1) & 0xFF == 27] *)
Definition esc_pressed (key : Z) : bool := Z.land key 255 =? 27.

(** How a loop body hands control back. *)
Inductive ctl (S : Type) :=
| Next (s : S)
| Break.
Arguments Next {S} s.
Arguments Break {S}.

(** *** numpy boolean-mask indexing, [a[mask]] *)

Fixpoint compress {A} (mask : list bool) (xs : list A) : list A :=
  match mask, xs with
  | b :: mask', x :: xs' =>
      if b then x :: compress mask' xs' else compress mask' xs'
  | _, _ => []
  end.


(** numpy refuses a mask whose length differs from the indexed axis. *)
Definition bool_index {A} (xs : list A) (mask : list bool) : result (list A) :=
  if decide (length mask = length xs) then Ok (compress mask xs)
  else Raise (IndexError "boolean index did not match indexed array").

(** [status == 1] on the uint8 status column. *)
Definition status_mask (status : list Z) : list bool :=
  map (fun s => s =? 1) status.

(** *** collections.deque with [maxlen] *)

(** [d.append(x)]: push on the right, then drop from the left whatever
    exceeds [maxlen]. *)
Definition deque_append {A} (maxlen : nat) (d : list A) (x : A) : list A :=
  let d' := d ++ [x] in drop (length d' - maxlen)%nat d'.

(** [d.popleft()] *)
Definition deque_popleft {A} (d : list A) : result (A * list A) :=
  match d with
  | [] => Raise (IndexError "pop from an empty deque")
  | x :: d' => Ok (x, d')
  end.

(** ** optical_flow_demo.py *)

Module OpticalFlow.

Definition frames_to_calc : nat := 5.

Definition color : Type := (Z * Z * Z)%type.

Section Pipeline.
(** Frames, grayscale frames and point coordinates are opaque here:
    the script only passes them between library calls.  [cvtColor] is
    the grayscale conversion and [to_int] is Python's [int()] on a
    coordinate. *)
Context {frame gray coord : Type}.
Variable cvtColor : frame → gray.
Variable to_int : coord → Z.

Definition point : Type := (coord * coord)%type.

Inductive event :=
| Print (msg : string)
| CalcOpticalFlowPyrLK (prevImg nextImg : gray) (prevPts : option (list point))
| ArrowedLine (pt1 pt2 : Z * Z) (col : color)
| Circle (center : Z * Z) (radius : Z) (col : color)
| Imshow
| Sleep
| DestroyAllWindows.

(** What the outside world answers during one pass of the loop. *)
Record iteration := {
  read : option frame;               (* video.read(): None when ret is False *)
  corners : option (list point);     (* goodFeaturesToTrack: None when nothing is found *)
  flow_points : option (list point); (* calcOpticalFlowPyrLK: p_dst *)
  flow_status : list Z;              (* calcOpticalFlowPyrLK: status *)
  random_colors : nat → color;       (* row i of np.random.randint(0, 255, (100, 3)) *)
  wait_key : Z                       (* cv2.waitKey(1) *)
}.

Definition at_pixel (p : point) : Z * Z := (to_int (fst p), to_int (snd p)).

(** show_good_features: [for corner in corners] raises on [None]. *)
Definition show_good_features (corners : option (list point)) : prog event unit :=
  match corners with
  | None => raise (TypeError "'NoneType' object is not iterable")
  | Some cs => (map (fun corner => Circle (at_pixel corner) 5 (0, 0, 255)) cs, Ok tt)
  end.

(** One pass of the body of show_lines.  The loop header unpacks
    [zip(source, destination)] into [(dst, src)]: [dst] walks the
    first argument and [src] the second. *)
Definition show_line (random_colors : nat → color) (i : nat) (dst src : point)
  : list event :=
  let color := random_colors (i mod 100)%nat in
  [ ArrowedLine (at_pixel src) (at_pixel dst) color;
    Circle (at_pixel src) 10 color ].

Fixpoint show_lines_from (random_colors : nat → color) (i : nat)
    (source destination : list point) : list event :=
  match source, destination with
  | dst :: source', src :: destination' =>
      show_line random_colors i dst src
        ++ show_lines_from random_colors (S i) source' destination'
  | _, _ => []
  end.

Definition show_lines (random_colors : nat → color)
    (source destination : list point) : prog event unit :=
  (show_lines_from random_colors 0 source destination, Ok tt).

(** Lines 62-65: the reference frame, and the buffer it leaves. *)
Definition pop_reference (prev_gray_frames : list gray)
  : result (option gray * list gray) :=
  if decide (frames_to_calc ≤ length prev_gray_frames)%nat then
    match deque_popleft prev_gray_frames with
    | Ok (g, rest) => Ok (Some g, rest)
    | Raise e => Raise e
    end
  else Ok (None, prev_gray_frames).

(** [p_src[status == 1]] when [p_src] may be [None]. *)
Definition index_points (pts : option (list point)) (mask : list bool)
  : result (list point) :=
  match pts with
  | None => Raise (TypeError "'NoneType' object is not subscriptable")
  | Some ps => bool_index ps mask
  end.

(** Lines 67-75: returns the value of [p_src] after the block. *)
Definition flow_block (it : iteration) (src_gray : gray)
    (prev_frame_gray : option gray) (p_src : option (list point))
  : prog event (option (list point)) :=
  match prev_frame_gray with
  | None => mret p_src
  | Some prev =>
      emit (CalcOpticalFlowPyrLK src_gray prev p_src) ;;
      match flow_points it with
      | None => mret p_src
      | Some p_dst =>
          let mask := status_mask (flow_status it) in
          p_dst' ← lift (bool_index p_dst mask);
          p_src' ← lift (index_points p_src mask);
          show_lines (random_colors it) p_src' p_dst' ;;
          mret (Some p_src')
      end
  end.

(** Lines 51-86: one pass of the [while True] body. *)
Definition body (prev_gray_frames : list gray) (it : iteration)
  : prog event (ctl (list gray)) :=
  match read it with
  | None => emit (Print "End of video.") ;; mret Break
  | Some frame =>
      let src_gray := cvtColor frame in
      let p_src := corners it in
      popped ← lift (pop_reference prev_gray_frames);
      let '(prev_frame_gray, prev_gray_frames) := popped in
      p_src ← flow_block it src_gray prev_frame_gray p_src;
      show_good_features p_src ;;
      emit Imshow ;;
      if esc_pressed (wait_key it) then mret Break
      else
        let prev_gray_frames := deque_append frames_to_calc prev_gray_frames src_gray in
        emit Sleep ;;
        mret (Next prev_gray_frames)
  end.

(** Reading a trace: the frames shown and the arrows drawn. *)
Definition shown (ev : event) : option unit :=
  match ev with Imshow => Some tt | _ => None end.

Definition arrow_drawn (ev : event) : option ((Z * Z) * (Z * Z)) :=
  match ev with ArrowedLine pt1 pt2 _ => Some (pt1, pt2) | _ => None end.

(** C7 as the specification words it: an arrow starts at each
    filtered source point and ends at the destination point that goes
    with it. *)
Definition arrows_source_to_destination (source destination : list point)
    (t : list event) : Prop :=
  ∀ (i : nat) (src dst : point),
    source !! i = Some src → destination !! i = Some dst →
    (at_pixel src, at_pixel dst) ∈ omap arrow_drawn t.

(** The stream is the list of passes the outside world can answer;
    once it is used up the next [video.read()] reports no frame. *)
Definition end_of_stream : iteration :=
  {| read := None; corners := None; flow_points := None; flow_status := [];
     random_colors := fun _ => (0, 0, 0); wait_key := -1 |}.

Fixpoint loop (prev_gray_frames : list gray) (stream : list iteration)
  : prog event unit :=
  match stream with
  | [] => body prev_gray_frames end_of_stream ;; mret tt
  | it :: stream' =>
      c ← body prev_gray_frames it;
      match c with
      | Break => mret tt
      | Next prev_gray_frames' => loop prev_gray_frames' stream'
      end
  end.

(** The whole script from line 48 on. *)
Definition main (stream : list iteration) : prog event unit :=
  loop [] stream ;;
  emit DestroyAllWindows ;;
  emit (Print "Tracking ended.").

(** The passes of [stream] all reach the end of the body: the trace
    they leave and the buffer they hand to the next pass. *)
Fixpoint passes (prev_gray_frames : list gray) (stream : list iteration)
  : option (list event * list gray) :=
  match stream with
  | [] => Some ([], prev_gray_frames)
  | it :: stream' =>
      match body prev_gray_frames it with
      | (t, Ok (Next prev_gray_frames')) =>
          match passes prev_gray_frames' stream' with
          | Some (t', final) => Some (t ++ t', final)
          | None => None
          end
      | _ => None
      end
  end.

End Pipeline.

End OpticalFlow.

(** ** numpy arrays as far as tracker_compare.py uses them *)

(** [l[i]] on a Python list: a negative index counts from the end. *)
Definition py_getitem {A} (l : list A) (i : Z) : result A :=
  let i' := if i <? 0 then i + Z.of_nat (length l) else i in
  if i' <? 0 then Raise (IndexError "list index out of range")
  else match l !! Z.to_nat i' with
       | Some a => Ok a
       | None => Raise (IndexError "list index out of range")
       end.

(** One bound of a slice over an axis of length [n]: a negative bound
    counts from the end, and the outcome is clipped to [0..n]. *)
Definition adjust_index (n : nat) (i : Z) : Z :=
  if i <? 0 then Z.max (i + Z.of_nat n) 0 else Z.min i (Z.of_nat n).

(** [start:stop] over an axis of length [n]: first position and count. *)
Definition slice_range (n : nat) (start stop : Z) : nat * nat :=
  let lo := adjust_index n start in
  let hi := adjust_index n stop in
  (Z.to_nat lo, Z.to_nat (hi - lo)).

Section Arrays.
(** A pixel is whatever sits below the first two axes: one sample of
    a grayscale image, a BGR triple of a colour one. *)
Context {pixel : Type}.

(** The first two axes of an array.  The width is kept beside the
    rows because an array of no rows still has one. *)
Record ndarray := {
  width : nat;
  rows : list (list pixel)
}.

Definition height (a : ndarray) : nat := length (rows a).

Definition well_shaped (a : ndarray) : Prop :=
  Forall (fun row => length row = width a) (rows a).

Definition pixel_at (a : ndarray) (r c : nat) : option pixel :=
  row ← rows a !! r; row !! c.

(** [a[r0:r1, c0:c1]] read *)
Definition getslice (a : ndarray) (r0 r1 c0 c1 : Z) : ndarray :=
  let '(rlo, rn) := slice_range (height a) r0 r1 in
  let '(clo, cn) := slice_range (width a) c0 c1 in
  {| width := cn;
     rows := (fun row => take cn (drop clo row)) <$> take rn (drop rlo (rows a)) |}.

(** Broadcasting along one axis: the value has the wanted extent, or
    extent 1 and is repeated. *)
Definition broadcasts (have want : nat) : bool :=
  bool_decide (have = want) || bool_decide (have = 1%nat).

Definition source_index (have i : nat) : nat :=
  if decide (have = 1%nat) then 0%nat else i.

Definition within (lo n i : nat) : bool :=
  bool_decide (lo ≤ i)%nat && bool_decide (i < lo + n)%nat.

(** [a[r0:r1, c0:c1] = v]: the new contents of [a], or the
    ValueError numpy raises when [v] does not broadcast to the
    selected region. *)
Definition setslice (a : ndarray) (r0 r1 c0 c1 : Z) (v : ndarray)
  : result ndarray :=
  let '(rlo, rn) := slice_range (height a) r0 r1 in
  let '(clo, cn) := slice_range (width a) c0 c1 in
  if broadcasts (height v) rn && broadcasts (width v) cn then
    Ok {| width := width a;
          rows :=
            imap (fun r row =>
              if within rlo rn r then
                imap (fun c p =>
                  if within clo cn c then
                    default p (pixel_at v (source_index (height v) (r - rlo))
                                          (source_index (width v) (c - clo)))
                  else p) row
              else row) (rows a) |}
  else Raise (ValueError "could not broadcast input array").

(** overlay_image, lines 25-31, on the contents of the two arrays. *)
Definition overlay_pixels (background foreground : ndarray) (x y : Z)
  : result ndarray :=
  let fg_height := Z.of_nat (height foreground) in
  let fg_width := Z.of_nat (width foreground) in
  let bg_height := Z.of_nat (height background) in
  let bg_width := Z.of_nat (width background) in
  let w := Z.min fg_width (bg_width - x) in
  let h := Z.min fg_height (bg_height - y) in
  let foreground :=
    if (w <? fg_width) || (h <? fg_height) then getslice foreground 0 h 0 w
    else foreground in
  setslice background y (y + h) x (x + w) (getslice foreground 0 h 0 w).

(** The overlay as the specification words it: the foreground is
    laid with its top-left pixel at column [x], row [y]; what falls
    inside the background replaces the pixel there, the rest of the
    foreground is cut off and the rest of the background is kept. *)
Definition pixel_atZ (a : ndarray) (r c : Z) : option pixel :=
  if (0 <=? r) && (0 <=? c) then pixel_at a (Z.to_nat r) (Z.to_nat c)
  else None.

Definition clipped_paste (background foreground : ndarray) (x y : Z)
  : ndarray :=
  {| width := width background;
     rows :=
       imap (fun r row =>
         imap (fun c p =>
           default p (pixel_atZ foreground (Z.of_nat r - y) (Z.of_nat c - x)))
           row) (rows background) |}.

(** Arrays live in a store of objects; a variable holds a reference. *)
Definition loc : Type := positive.

Definition alloc (σ : gmap loc ndarray) (a : ndarray)
  : gmap loc ndarray * loc :=
  let l := fresh (dom σ) in (<[l := a]> σ, l).

(** overlay_image: both arguments are references; line 31 writes
    through [background] and line 33 returns that reference. *)
Definition overlay_image (σ : gmap loc ndarray) (background foreground : loc)
    (x y : Z) : result (gmap loc ndarray * loc) :=
  match σ !! background, σ !! foreground with
  | Some bg, Some fg =>
      match overlay_pixels bg fg x y with
      | Ok bg' => Ok (<[background := bg']> σ, background)
      | Raise e => Raise e
      end
  | _, _ => Raise (AttributeError "'NoneType' object has no attribute 'shape'")
  end.

End Arrays.

Arguments ndarray : clear implicits.

(** ** tracker_compare.py *)

Module TrackerCompare.

Definition testfile : string := "nfs/testfile.mp4".
Definition output_file : string := "nfs/output.mp4".

Definition color : Type := (Z * Z * Z)%type.

(** A box [(x, y, w, h)]; the library hands out integers, on which
    [int()] does nothing. *)
Definition bbox : Type := (Z * Z * Z * Z)%type.

(** An entry of [trackers].  The ['tracker'] handle is the library's:
    what it answers comes from the environment, by position. *)
Record tracker := {
  name : string;
  tracker_color : color
}.

Definition trackers : list tracker :=
  [ {| name := "KCF"; tracker_color := (0, 0, 255) |};
    {| name := "CSRT"; tracker_color := (255, 0, 0) |};
    {| name := "MIL"; tracker_color := (255, 255, 0) |} ].

(** An entry of [bboxes], lines 88-92. *)
Record box := {
  box_tracker : string;
  box_bbox : bbox;
  box_color : color
}.

Inductive event :=
| Print (msg : string)
| VideoCapture (file : string)
| SelectROI (window : string) (img : loc)
| DestroyWindow (window : string)
| TrackerCreate (name : string)
| TrackerInit (name : string) (img : loc) (roi : bbox)
| VideoWriter (file : string) (fps : Z) (frame_size : Z * Z)
| TrackerUpdate (name : string) (img : loc)
| Rectangle (img : loc) (pt1 pt2 : Z * Z) (col : color)
| PutText (img : loc) (text : string) (org : Z * Z) (col : color)
| Imshow (img : loc)
| WriterWrite (img : loc)
| Sleep
| DestroyAllWindows
| WriterRelease.

Definition dx : list Z := [0; 1; 0; 1].
Definition dy : list Z := [0; 0; 1; 1].

(** Lines 83-92: [pos] is the position of the head of [ts] in the
    list the loop started from. *)
Fixpoint update_trackers (ts : list tracker) (pos : nat) (frame : loc)
    (update : nat → bool * bbox) (bboxes : list box) : prog event (list box) :=
  match ts with
  | [] => mret bboxes
  | tracker :: ts' =>
      emit (TrackerUpdate (name tracker) frame) ;;
      let '(success, bbox) := update pos in
      let bboxes :=
        if success then
          bboxes ++ [ {| box_tracker := name tracker; box_bbox := bbox;
                         box_color := tracker_color tracker |} ]
        else bboxes in
      update_trackers ts' (S pos) frame update bboxes
  end.

(** The cycle of label corners, as the specification lists it, and
    the pair it assigns to a count [i]. *)
Definition corner_cycle : list (Z * Z) := [(0, 0); (1, 0); (0, 1); (1, 1)].

Definition corner_offset (i : Z) : Z * Z :=
  default (0, 0) (corner_cycle !! Z.to_nat (i mod 4)).

Definition label_org (rect : bbox) (i : Z) : Z * Z :=
  let '(x, y, w, h) := rect in
  let '(ox, oy) := corner_offset i in
  (x + ox * w, y + oy * h).

(** What drawing entry [i] of [bboxes] leaves on the trace. *)
Definition box_events (output_frame : loc) (i : nat) (b : box) : list event :=
  let '(x, y, w, h) := box_bbox b in
  [ Rectangle output_frame (x, y) (x + w, y + h) (box_color b);
    PutText output_frame (box_tracker b) (label_org (box_bbox b) (Z.of_nat i))
            (box_color b) ].

(** The trackers of [ts] whose update succeeds, by position: [pos] is
    the position of the head of [ts]. *)
Definition survivors (pos : nat) (ts : list tracker) (update : nat → bool * bbox)
  : list box :=
  omap (fun '(i, t) =>
          if fst (update i) then
            Some {| box_tracker := name t; box_bbox := snd (update i);
                    box_color := tracker_color t |}
          else None)
       (zip (seq pos (length ts)) ts).

(** Reading a trace: what was printed, which trackers were asked, the
    boxes and labels drawn, the frames written to the output file. *)
Definition printed (ev : event) : option string :=
  match ev with Print msg => Some msg | _ => None end.

Definition updated (ev : event) : option string :=
  match ev with TrackerUpdate name _ => Some name | _ => None end.

Definition rectangle_drawn (ev : event) : option ((Z * Z) * (Z * Z) * color) :=
  match ev with Rectangle _ pt1 pt2 col => Some (pt1, pt2, col) | _ => None end.

Definition label_drawn (ev : event) : option (string * (Z * Z)) :=
  match ev with PutText _ text org _ => Some (text, org) | _ => None end.

Definition written (ev : event) : option loc :=
  match ev with WriterWrite img => Some img | _ => None end.

Definition box_corners (b : box) : (Z * Z) * (Z * Z) * color :=
  let '(x, y, w, h) := box_bbox b in ((x, y), (x + w, y + h), box_color b).

(** C4 as the specification words it: the label of the tracker at
    position [i] of the tracker list sits at the corner the cycle
    assigns to [i]. *)
Definition labels_by_tracker_position (ts : list tracker)
    (update : nat → bool * bbox) (t : list event) : Prop :=
  ∀ (i : nat) (tr : tracker),
    ts !! i = Some tr → fst (update i) = true →
    (name tr, label_org (snd (update i)) (Z.of_nat i)) ∈ omap label_drawn t.

Section Pipeline.
Context {pixel : Type}.

(** What cv2.rectangle and cv2.putText leave in the array they are
    given: the library's rasterisers, of which the script only uses
    that they write into their first argument. *)
Variable rectangle : ndarray pixel → Z * Z → Z * Z → color → ndarray pixel.
Variable putText : ndarray pixel → string → Z * Z → color → ndarray pixel.

#[local] Abbreviation store := (gmap loc (ndarray pixel)).

(** draw_rect, lines 7-21: both calls draw into the array behind
    [frame_2_draw]. *)
Definition draw_rect (σ : store) (frame_2_draw : loc) (rect : bbox)
    (color : color) (text : string) (index : Z) : prog event store :=
  let '(x, y, w, h) := rect in
  emit (Rectangle frame_2_draw (x, y) (x + w, y + h) color) ;;
  let σ := alter (fun img => rectangle img (x, y) (x + w, y + h) color)
                 frame_2_draw σ in
  dxi ← lift (py_getitem dx (index mod 4));
  dyi ← lift (py_getitem dy (index mod 4));
  emit (PutText frame_2_draw text (x + dxi * w, y + dyi * h) color) ;;
  mret (alter (fun img => putText img text (x + dxi * w, y + dyi * h) color)
              frame_2_draw σ).

(** Lines 98-99: [for i, bbox in enumerate(bboxes)], from count [i]. *)
Fixpoint draw_boxes (σ : store) (output_frame : loc) (i : nat)
    (bboxes : list box) : prog event store :=
  match bboxes with
  | [] => mret σ
  | bbox :: bboxes' =>
      σ ← draw_rect σ output_frame (box_bbox bbox) (box_color bbox)
                    (box_tracker bbox) (Z.of_nat i);
      draw_boxes σ output_frame (S i) bboxes'
  end.

(** What entry [i] of [bboxes], and then the whole list from count
    [i], leaves in the array drawn on. *)
Definition paint_box (img : ndarray pixel) (i : nat) (b : box)
  : ndarray pixel :=
  let '(x, y, w, h) := box_bbox b in
  putText (rectangle img (x, y) (x + w, y + h) (box_color b))
          (box_tracker b) (label_org (box_bbox b) (Z.of_nat i)) (box_color b).

Fixpoint paint_boxes (img : ndarray pixel) (i : nat) (bboxes : list box)
  : ndarray pixel :=
  match bboxes with
  | [] => img
  | b :: bboxes' => paint_boxes (paint_box img i b) (S i) bboxes'
  end.

(** What the outside world answers during one pass of the loop. *)
Record pass := {
  read : option (ndarray pixel);  (* video.read(): None when ret is False *)
  update : nat → bool * bbox;     (* tracker.update(frame), by position in trackers *)
  wait_key : Z                    (* cv2.waitKey(1) *)
}.

(** Lines 75-109: one pass of the [while True] body. *)
Definition body (ts : list tracker) (roi_image : loc) (σ : store) (it : pass)
  : prog event (ctl store) :=
  match read it with
  | None => emit (Print "End of video.") ;; mret Break
  | Some pixels =>
      let '(σ, frame) := alloc σ pixels in
      bboxes ← update_trackers ts 0 frame (update it) [];
      let '(σ, output_frame) := alloc σ pixels in
      overlaid ← lift (overlay_image σ output_frame roi_image 0 0);
      let σ := fst overlaid in
      σ ← draw_boxes σ output_frame 0 bboxes;
      emit (Imshow output_frame) ;;
      emit (WriterWrite output_frame) ;;
      if esc_pressed (wait_key it) then mret Break
      else emit Sleep ;; mret (Next σ)
  end.

Definition end_of_stream : pass :=
  {| read := None; update := fun _ => (false, (0, 0, 0, 0)); wait_key := -1 |}.

Fixpoint loop (ts : list tracker) (roi_image : loc) (σ : store)
    (stream : list pass) : prog event unit :=
  match stream with
  | [] => body ts roi_image σ end_of_stream ;; mret tt
  | it :: stream' =>
      c ← body ts roi_image σ it;
      match c with
      | Break => mret tt
      | Next σ' => loop ts roi_image σ' stream'
      end
  end.

Fixpoint init_trackers (ts : list tracker) (frame : loc) (roi : bbox)
  : prog event unit :=
  match ts with
  | [] => mret tt
  | tracker :: ts' =>
      emit (TrackerInit (name tracker) frame roi) ;;
      init_trackers ts' frame roi
  end.

(** Lines 37-72, everything before the loop: [first] is the reply to
    the read of line 39, [roi] the rectangle cv2.selectROI returns.
    Hands the loop its store and the reference to the ROI snapshot. *)
Definition startup (first : option (ndarray pixel)) (roi : bbox)
  : prog event (store * loc) :=
  emit (VideoCapture testfile) ;;
  match first with
  | None => raise (ValueError "Could not read video")
  | Some pixels =>
      let '(σ, frame) := alloc ∅ pixels in
      emit (SelectROI "Tracking" frame) ;;
      emit (DestroyWindow "Tracking") ;;
      let '(rx, ry, rw, rh) := roi in
      let '(σ, roi_image) :=
        alloc σ (getslice pixels ry (ry + rh) rx (rx + rw)) in
      ((fun t => TrackerCreate (name t)) <$> trackers, Ok tt) ;;
      init_trackers trackers frame roi ;;
      let fg_height := Z.of_nat (height pixels) in
      let fg_width := Z.of_nat (width pixels) in
      emit (VideoWriter output_file 30 (fg_width, fg_height)) ;;
      mret (σ, roi_image)
  end.

(** The whole script from line 37 on. *)
Definition main (first : option (ndarray pixel)) (roi : bbox)
    (stream : list pass) : prog event unit :=
  started ← startup first roi;
  loop trackers (snd started) (fst started) stream ;;
  emit DestroyAllWindows ;;
  emit WriterRelease ;;
  emit (Print "Tracking ended.").

(** The passes of [stream] all reach the end of the body. *)
Fixpoint passes (ts : list tracker) (roi_image : loc) (σ : store)
    (stream : list pass) : option (list event * store) :=
  match stream with
  | [] => Some ([], σ)
  | it :: stream' =>
      match body ts roi_image σ it with
      | (t, Ok (Next σ')) =>
          match passes ts roi_image σ' stream' with
          | Some (t', final) => Some (t ++ t', final)
          | None => None
          end
      | _ => None
      end
  end.

End Pipeline.

End TrackerCompare.

(** ** Worked inputs

    Small streams, images and tracker replies on which the claims are
    evaluated at the end of the file. *)

(** Stand-ins for the two rasterisers: each marks one pixel, the first
    corner of the rectangle with 100 and the origin of the text with
    200, when that pixel lies in the array. *)
Definition stamp (img : ndarray Z) (pt : Z * Z) (v : Z) : ndarray Z :=
  {| width := width img;
     rows :=
       imap (fun r row =>
         imap (fun c p =>
           if (Z.of_nat r =? snd pt) && (Z.of_nat c =? fst pt) then v else p)
           row) (rows img) |}.

Definition demo_rectangle (img : ndarray Z) (pt1 pt2 : Z * Z)
    (col : TrackerCompare.color) : ndarray Z :=
  stamp img pt1 100.

Definition demo_putText (img : ndarray Z) (text : string) (org : Z * Z)
    (col : TrackerCompare.color) : ndarray Z :=
  stamp img org 200.

Definition demo_pass (n : nat) : @OpticalFlow.iteration nat Z :=
  {| OpticalFlow.read := Some n;
     OpticalFlow.corners := Some [(3, 4)];
     OpticalFlow.flow_points := Some [(1, 2)];
     OpticalFlow.flow_status := [1];
     OpticalFlow.random_colors := fun i => (Z.of_nat i, 0, 0);
     OpticalFlow.wait_key := -1 |}.

Definition failed_read : @OpticalFlow.iteration nat Z :=
  {| OpticalFlow.read := None;
     OpticalFlow.corners := None;
     OpticalFlow.flow_points := None;
     OpticalFlow.flow_status := [];
     OpticalFlow.random_colors := fun i => (Z.of_nat i, 0, 0);
     OpticalFlow.wait_key := -1 |}.

Definition null_corners_pass : @OpticalFlow.iteration nat Z :=
  {| OpticalFlow.read := Some 1%nat;
     OpticalFlow.corners := None;
     OpticalFlow.flow_points := None;
     OpticalFlow.flow_status := [];
     OpticalFlow.random_colors := fun i => (Z.of_nat i, 0, 0);
     OpticalFlow.wait_key := -1 |}.

Definition demo_background : ndarray Z :=
  {| width := 4; rows := [[0; 0; 0; 0]; [0; 0; 0; 0]; [0; 0; 0; 0]] |}.

Definition demo_foreground : ndarray Z :=
  {| width := 2; rows := [[1; 2]; [3; 4]] |}.

Definition demo_wide : ndarray Z :=
  {| width := 4; rows := [[5; 6; 7; 8]] |}.

Definition demo_store : gmap loc (ndarray Z) :=
  <[3%positive := demo_wide]>
    (<[2%positive := demo_foreground]> (<[1%positive := demo_background]> ∅)).

Definition demo_frame (n : Z) : ndarray Z :=
  {| width := 3; rows := [[n; n; n]; [n; n; n]] |}.

(** The second tracker fails. *)
Definition second_fails (i : nat) : bool * TrackerCompare.bbox :=
  match i with
  | 1%nat => (false, (0, 0, 0, 0))
  | _ => (true, (10, 20, 30, 40))
  end.

(** The first tracker fails. *)
Definition first_fails (i : nat) : bool * TrackerCompare.bbox :=
  match i with
  | 0%nat => (false, (0, 0, 0, 0))
  | _ => (true, (10, 20, 30, 40))
  end.

Definition tracker_pass (update : nat → bool * TrackerCompare.bbox) (n : Z)
  : @TrackerCompare.pass Z :=
  {| TrackerCompare.read := Some (demo_frame n);
     TrackerCompare.update := update;
     TrackerCompare.wait_key := -1 |}.

Definition tracker_failed_read : @TrackerCompare.pass Z :=
  {| TrackerCompare.read := None;
     TrackerCompare.update := second_fails;
     TrackerCompare.wait_key := -1 |}.

(** The ten-frame scenario: five frames, a failed read, four more. *)
Definition flow_prefix : list (@OpticalFlow.iteration nat Z) :=
  map demo_pass [1; 2; 3; 4; 5]%nat.

Definition flow_suffix : list (@OpticalFlow.iteration nat Z) :=
  map demo_pass [7; 8; 9; 10]%nat.

Definition flow_prefix_run : list (@OpticalFlow.event nat Z) * list nat :=
  Eval vm_compute in
    default ([], []) (OpticalFlow.passes S id [] flow_prefix).

Definition tracker_prefix : list (@TrackerCompare.pass Z) :=
  map (tracker_pass second_fails) [1; 2; 3; 4; 5].

Definition tracker_suffix : list (@TrackerCompare.pass Z) :=
  map (tracker_pass second_fails) [7; 8; 9; 10].

Definition tracker_start
  : list TrackerCompare.event * (gmap loc (ndarray Z) * loc) :=
  Eval vm_compute in
    match TrackerCompare.startup (Some (demo_frame 0)) (1, 0, 2, 1) with
    | (t0, Ok started) => (t0, started)
    | (t0, Raise _) => (t0, (∅, 1%positive))
    end.

Definition tracker_prefix_run
  : list TrackerCompare.event * gmap loc (ndarray Z) :=
  Eval vm_compute in
    default ([], ∅)
      (TrackerCompare.passes demo_rectangle demo_putText TrackerCompare.trackers (snd (snd tracker_start))
         (fst (snd tracker_start)) tracker_prefix).

(** Passes for the edge cases of the flow loop. *)
Definition esc_pass (n : nat) : @OpticalFlow.iteration nat Z :=
  {| OpticalFlow.read := Some n;
     OpticalFlow.corners := Some [(3, 4)];
     OpticalFlow.flow_points := Some [(1, 2)];
     OpticalFlow.flow_status := [1];
     OpticalFlow.random_colors := fun i => (Z.of_nat i, 0, 0);
     OpticalFlow.wait_key := 27 |}.

Definition lost_flow_pass (n : nat) : @OpticalFlow.iteration nat Z :=
  {| OpticalFlow.read := Some n;
     OpticalFlow.corners := Some [(3, 4); (5, 6)];
     OpticalFlow.flow_points := None;
     OpticalFlow.flow_status := [];
     OpticalFlow.random_colors := fun i => (Z.of_nat i, 0, 0);
     OpticalFlow.wait_key := -1 |}.

Definition untracked_pass (n : nat) : @OpticalFlow.iteration nat Z :=
  {| OpticalFlow.read := Some n;
     OpticalFlow.corners := Some [(3, 4); (5, 6)];
     OpticalFlow.flow_points := Some [(1, 2); (7, 8)];
     OpticalFlow.flow_status := [0; 0];
     OpticalFlow.random_colors := fun i => (Z.of_nat i, 0, 0);
     OpticalFlow.wait_key := -1 |}.

Definition many_points : list (Z * Z) :=
  map (fun i => (Z.of_nat i, 0)) (seq 0 101).

(** Which array an event of the tracker loop works on: the one a
    tracker is updated with, and the one that is drawn on, shown or
    written. *)
Definition update_target (ev : TrackerCompare.event) : option loc :=
  match ev with
  | TrackerCompare.TrackerUpdate _ img => Some img
  | _ => None
  end.

Definition output_target (ev : TrackerCompare.event) : option loc :=
  match ev with
  | TrackerCompare.Rectangle img _ _ _ => Some img
  | TrackerCompare.PutText img _ _ _ => Some img
  | TrackerCompare.Imshow img => Some img
  | TrackerCompare.WriterWrite img => Some img
  | _ => None
  end.

(** Inputs for the edge cases of the two loops. *)
Definition flow_seven : list (@OpticalFlow.iteration nat Z) :=
  map demo_pass [1; 2; 3; 4; 5; 6; 7]%nat.

Definition flow_seven_run : list (@OpticalFlow.event nat Z) * list nat :=
  Eval vm_compute in
    default ([], []) (OpticalFlow.passes S id [] flow_seven).

Definition flow_esc_step : list (@OpticalFlow.event nat Z) :=
  Eval vm_compute in
    fst (OpticalFlow.body S id (snd flow_prefix_run) (esc_pass 6)).

Definition flow_palette (i : nat) : OpticalFlow.color := (Z.of_nat i, 0, 0).

Definition demo_empty : ndarray Z := {| width := 0; rows := [] |}.

Definition demo_first : ndarray Z :=
  {| width := 4; rows := [[1; 2; 3; 4]; [5; 6; 7; 8]; [9; 10; 11; 12]] |}.

Definition demo_store_empty : gmap loc (ndarray Z) :=
  <[4%positive := demo_empty]> demo_store.

Definition demo_pasted : ndarray Z :=
  {| width := 4; rows := [[0; 0; 0; 0]; [0; 0; 0; 0]; [0; 0; 0; 1]] |}.

Definition tracker_roi_pixels : ndarray Z := {| width := 2; rows := [[0; 0]] |}.

Definition tracker_esc_pass : @TrackerCompare.pass Z :=
  {| TrackerCompare.read := Some (demo_frame 6);
     TrackerCompare.update := second_fails;
     TrackerCompare.wait_key := 27 |}.

Definition tracker_step : list TrackerCompare.event * gmap loc (ndarray Z) :=
  Eval vm_compute in
    match TrackerCompare.body demo_rectangle demo_putText TrackerCompare.trackers (snd (snd tracker_start))
            (fst (snd tracker_start)) (tracker_pass second_fails 1) with
    | (t, Ok (Next σ)) => (t, σ)
    | (t, _) => (t, ∅)
    end.

(** Two trackers hold a box inside the frame, the second one fails. *)
Definition inside_replies (i : nat) : bool * TrackerCompare.bbox :=
  match i with
  | 1%nat => (false, (0, 0, 0, 0))
  | _ => (true, (1, 0, 1, 1))
  end.

Definition paint_step : list TrackerCompare.event * gmap loc (ndarray Z) :=
  Eval vm_compute in
    match TrackerCompare.body demo_rectangle demo_putText
            TrackerCompare.trackers 2%positive demo_store
            (tracker_pass inside_replies 5) with
    | (t, Ok (Next σ)) => (t, σ)
    | (t, _) => (t, ∅)
    end.

(** ** Facts about the plumbing *)

Lemma bind_unfold {E A B} (k : A → prog E B) (m : prog E A) :
  m ≫= k = bind k m.
Proof. reflexivity. Qed.

Lemma bind_Ok_inv {E A B} (k : A → prog E B) (m : prog E A) t b :
  bind k m = (t, Ok b) →
  ∃ t1 a t2, m = (t1, Ok a) ∧ k a = (t2, Ok b) ∧ t = t1 ++ t2.
Proof.
  destruct m as [t1 [a|e]]; simpl; [|discriminate].
  destruct (k a) as [t2 r] eqn:Hk. intros [= <- ->]. by exists t1, a, t2.
Qed.

Lemma bind_Ok {E A B} (k : A → prog E B) t a :
  bind k (t, Ok a) = (t ++ fst (k a), snd (k a)).
Proof. simpl. by destruct (k a). Qed.

Lemma lift_Ok_bind {E A B} (k : A → prog E B) (a : A) :
  lift (Ok a) ≫= k = k a.
Proof. unfold lift. rewrite bind_unfold. simpl. by destruct (k a). Qed.

Lemma bind_trace_prefix {E A B} (k : A → prog E B) (m : prog E A) :
  ∃ t', trace_of (bind k m) = trace_of m ++ t'.
Proof.
  destruct m as [t [a|e]]; simpl.
  - destruct (k a) as [t2 r]. by exists t2.
  - exists []. by rewrite app_nil_r.
Qed.

Lemma trace_bind_cons {E A B} (k : A → prog E B) (m : prog E A) ev t :
  trace_of m = ev :: t → ∃ t', trace_of (m ≫= k) = ev :: t'.
Proof.
  intros Hm. destruct (bind_trace_prefix k m) as [t' Ht'].
  rewrite bind_unfold, Ht', Hm. simpl. eauto.
Qed.

Lemma trace_emit_bind {E B} (k : unit → prog E B) (ev : E) :
  trace_of (emit ev ≫= k) = ev :: trace_of (k tt).
Proof. rewrite bind_unfold. unfold emit, trace_of. simpl. by destruct (k tt). Qed.

Lemma emit_bind {E B} (k : unit → prog E B) (ev : E) :
  emit ev ≫= k = (ev :: fst (k tt), snd (k tt)).
Proof. rewrite bind_unfold. unfold emit. simpl. by destruct (k tt). Qed.

Lemma events_bind {E B} (k : unit → prog E B) (t : list E) :
  (t, Ok tt) ≫= k = (t ++ fst (k tt), snd (k tt)).
Proof. rewrite bind_unfold. simpl. by destruct (k tt). Qed.

Lemma mret_bind {E A B} (k : A → prog E B) (a : A) :
  mret a ≫= k = k a.
Proof. rewrite bind_unfold. unfold mret, prog_mret. simpl. by destruct (k a). Qed.


Lemma compress_length_mask {A B} (mask : list bool) (xs : list A) (ys : list B) :
  length mask = length xs → length mask = length ys →
  length (compress mask xs) = length (compress mask ys).
Proof.
  revert xs ys.
  induction mask as [|b mask IH]; intros [|x xs] [|y ys] Hx Hy;
    simpl in *; try discriminate; auto.
  destruct b; simpl; auto.
Qed.

Lemma deque_append_length {A} maxlen (d : list A) x :
  (length (deque_append maxlen d x) ≤ maxlen)%nat.
Proof. unfold deque_append. rewrite length_drop, length_app. simpl. lia. Qed.

Lemma deque_append_room {A} maxlen (d : list A) x :
  (length d < maxlen)%nat → deque_append maxlen d x = d ++ [x].
Proof.
  intros H. unfold deque_append. rewrite length_app. simpl.
  replace (length d + 1 - maxlen)%nat with 0%nat by lia. reflexivity.
Qed.

(** ** optical_flow_demo.py: the loop *)

Section OpticalFlowFacts.
Import OpticalFlow.
Context {frame gray coord : Type}.
Variable cvtColor : frame → gray.
Variable to_int : coord → Z.

#[local] Abbreviation iteration := (@iteration frame coord).
#[local] Abbreviation body := (body cvtColor to_int).
#[local] Abbreviation passes := (passes cvtColor to_int).
#[local] Abbreviation loop := (loop cvtColor to_int).
#[local] Abbreviation main := (main cvtColor to_int).
#[local] Abbreviation event := (@event gray coord).
#[local] Abbreviation at_pixel := (at_pixel to_int).
#[local] Abbreviation show_lines_from := (@show_lines_from gray coord to_int).
#[local] Abbreviation show_good_features := (@show_good_features gray coord to_int).
#[local] Abbreviation flow_block := (@flow_block frame gray coord to_int).
#[local] Abbreviation shown := (@shown gray coord).
#[local] Abbreviation arrow_drawn := (@arrow_drawn gray coord).

Lemma pop_reference_short (buf : list gray) :
  (length buf < frames_to_calc)%nat → pop_reference buf = Ok (None, buf).
Proof. intros H. unfold pop_reference. case_decide; [lia | done]. Qed.

Lemma pop_reference_full (g : gray) (buf : list gray) :
  (frames_to_calc ≤ S (length buf))%nat →
  pop_reference (g :: buf) = Ok (Some g, buf).
Proof. intros H. unfold pop_reference. simpl. case_decide; [done | lia]. Qed.

Lemma pop_reference_length (buf rest : list gray) prev :
  pop_reference buf = Ok (prev, rest) → (length rest ≤ length buf)%nat.
Proof.
  unfold pop_reference. case_decide.
  - destruct buf as [|g buf]; simpl; [discriminate|]. intros [= _ <-]. lia.
  - intros [= _ <-]. lia.
Qed.

(** A pass that reaches the end of the body read a frame and leaves
    the buffer it found, minus the popped reference, plus that
    frame's grayscale. *)
Lemma body_Next (buf buf' : list gray) (it : iteration) t :
  body buf it = (t, Ok (Next buf')) →
  ∃ f prev rest,
    read it = Some f ∧ pop_reference buf = Ok (prev, rest)
    ∧ buf' = deque_append frames_to_calc rest (cvtColor f).
Proof.
  unfold OpticalFlow.body. destruct (read it) as [f|]; [|discriminate].
  rewrite !bind_unfold. intros H.
  apply bind_Ok_inv in H as (t1 & [prev rest] & t2 & Hpop & H & _).
  unfold lift in Hpop. injection Hpop as _ Hpop.
  apply bind_Ok_inv in H as (t3 & p & t4 & _ & H & _).
  apply bind_Ok_inv in H as (t5 & [] & t6 & _ & H & _).
  apply bind_Ok_inv in H as (t7 & [] & t8 & _ & H & _).
  destruct (esc_pressed (wait_key it)); [discriminate|].
  injection H as _ H. exists f, prev, rest. by subst.
Qed.

Lemma passes_bounded (stream : list iteration) (buf0 buf : list gray) t :
  passes buf0 stream = Some (t, buf) →
  (length buf0 ≤ frames_to_calc)%nat → (length buf ≤ frames_to_calc)%nat.
Proof.
  revert buf0 t. induction stream as [|it stream IH]; intros buf0 t; simpl.
  - by intros [= _ <-].
  - destruct (body buf0 it) as [t1 [[buf1|]|e]] eqn:Hbody; try discriminate.
    destruct (passes buf1 stream) as [[t2 final]|] eqn:Hrest; [|discriminate].
    intros [= _ <-] _. apply (IH _ _ Hrest).
    apply body_Next in Hbody as (f & prev & rest & _ & _ & ->).
    apply deque_append_length.
Qed.

(** While the buffer has room, the passes only append. *)
Lemma passes_filling (stream : list iteration) (buf0 buf : list gray) t :
  passes buf0 stream = Some (t, buf) →
  (length buf0 + length stream ≤ frames_to_calc)%nat →
  ∃ frames, Forall2 (fun it f => read it = Some f) stream frames
            ∧ buf = buf0 ++ map cvtColor frames.
Proof.
  revert buf0 t. induction stream as [|it stream IH]; intros buf0 t; simpl.
  - intros [= _ <-] _. exists []. split; [constructor | by rewrite app_nil_r].
  - destruct (body buf0 it) as [t1 [[buf1|]|e]] eqn:Hbody; try discriminate.
    destruct (passes buf1 stream) as [[t2 final]|] eqn:Hrest; [|discriminate].
    intros [= _ <-] Hlen.
    apply body_Next in Hbody as (f & prev & rest & Hread & Hpop & ->).
    rewrite pop_reference_short in Hpop by lia. injection Hpop as <- <-.
    rewrite deque_append_room in Hrest by lia.
    destruct (IH _ _ Hrest) as (frames & Hall & ->).
    { rewrite length_app. simpl. lia. }
    exists (f :: frames). split; [by constructor|].
    by rewrite <- app_assoc.
Qed.

(** With a reference in hand, the first thing a pass does after the
    read is the flow call on it. *)
Lemma body_flow_call (buf rest : list gray) (it : iteration) f g :
  read it = Some f → pop_reference buf = Ok (Some g, rest) →
  ∃ t', trace_of (body buf it)
        = CalcOpticalFlowPyrLK (cvtColor f) g (corners it) :: t'.
Proof.
  intros Hread Hpop. unfold OpticalFlow.body. rewrite Hread, Hpop.
  rewrite lift_Ok_bind. cbv beta iota.
  eapply trace_bind_cons. unfold flow_block.
  rewrite trace_emit_bind. reflexivity.
Qed.

Lemma show_lines_from_length pal (i : nat) (source destination : list point) :
  length source = length destination →
  length (show_lines_from pal i source destination)
  = (2 * length source)%nat.
Proof.
  revert i destination.
  induction source as [|s source IH]; intros i [|d destination] Hlen;
    simpl in *; try done.
  rewrite (IH (S i) destination) by lia. lia.
Qed.

(** Entry [k] of the two lists gives events [2k] and [2k+1]: the
    arrow runs from the point of the second list to the point of the
    first, the disc sits on the point of the second. *)
Lemma show_lines_from_lookup pal (i k : nat) (source destination : list point)
    (s d : point) :
  source !! k = Some s → destination !! k = Some d →
  show_lines_from pal i source destination !! (2 * k)%nat
  = Some (ArrowedLine (at_pixel d) (at_pixel s)
            (pal ((i + k) mod 100)%nat))
  ∧ show_lines_from pal i source destination !! (2 * k + 1)%nat
    = Some (Circle (at_pixel d) 10 (pal ((i + k) mod 100)%nat)).
Proof.
  revert i k destination.
  induction source as [|s0 source IH]; intros i k [|d0 destination] Hs Hd;
    try done.
  destruct k as [|k].
  - injection Hs as ->. injection Hd as ->. rewrite Nat.add_0_r. by split.
  - simpl in Hs, Hd. destruct (IH (S i) k destination Hs Hd) as [H1 H2].
    replace (i + S k)%nat with (S i + k)%nat by lia.
    replace (2 * S k)%nat with (S (S (2 * k))) by lia.
    replace (S (S (2 * k)) + 1)%nat with (S (S (2 * k + 1))) by lia.
    split; [exact H1 | exact H2].
Qed.

Lemma show_lines_from_not_shown pal (i : nat) (source destination : list point) :
  omap shown (show_lines_from pal i source destination) = [].
Proof.
  revert i destination.
  induction source as [|s source IH]; intros i [|d destination]; try done.
  simpl. apply IH.
Qed.

(** A pass with a reference in hand, corners found and a flow reply
    of matching size, spelled out. *)
Lemma body_flow (buf rest : list gray) (it : iteration) f g p_src p_dst :
  read it = Some f → pop_reference buf = Ok (Some g, rest) →
  corners it = Some p_src → flow_points it = Some p_dst →
  length p_src = length (flow_status it) →
  length p_dst = length (flow_status it) →
  let mask := status_mask (flow_status it) in
  let fsrc := compress mask p_src in
  let fdst := compress mask p_dst in
  body buf it
  = (CalcOpticalFlowPyrLK (cvtColor f) g (Some p_src)
       :: show_lines_from (random_colors it) 0 fsrc fdst
       ++ map (fun corner => Circle (at_pixel corner) 5 (0, 0, 255)) fsrc
       ++ Imshow :: (if esc_pressed (wait_key it) then [] else [Sleep]),
     Ok (if esc_pressed (wait_key it) then Break
         else Next (deque_append frames_to_calc rest (cvtColor f)))).
Proof.
  intros Hread Hpop Hcorners Hflow Hls Hld mask fsrc fdst.
  assert (Hmask : length mask = length (flow_status it))
    by (unfold mask, status_mask; apply length_map).
  unfold OpticalFlow.body. rewrite Hread, Hpop, lift_Ok_bind. cbv beta iota.
  unfold OpticalFlow.flow_block. rewrite Hflow, Hcorners.
  unfold index_points, bool_index. fold mask.
  rewrite !decide_True by congruence. fold fsrc. fold fdst.
  rewrite !lift_Ok_bind. unfold show_lines, OpticalFlow.show_good_features.
  destruct (esc_pressed (wait_key it)); simpl; by rewrite app_nil_r.
Qed.

Lemma flow_block_not_shown (it : iteration) (src_gray : gray) prev p_src :
  omap shown (trace_of (flow_block it src_gray prev p_src)) = [].
Proof.
  unfold OpticalFlow.flow_block. destruct prev as [prev|]; [|done].
  rewrite trace_emit_bind. cbn [omap list_omap OpticalFlow.shown].
  destruct (flow_points it) as [p_dst|]; [|done].
  destruct (bool_index p_dst (status_mask (flow_status it))) as [fdst|e];
    [|done].
  rewrite lift_Ok_bind.
  destruct (index_points p_src (status_mask (flow_status it))) as [fsrc|e];
    [|done].
  rewrite lift_Ok_bind. unfold show_lines. rewrite events_bind.
  unfold trace_of. cbn [fst mret prog_mret]. rewrite app_nil_r.
  apply show_lines_from_not_shown.
Qed.

Lemma show_good_features_not_shown p t r :
  show_good_features p = (t, r) → omap shown t = [].
Proof.
  unfold OpticalFlow.show_good_features. destruct p as [cs|].
  - intros [= <- _]. induction cs as [|c cs IH]; [done|]. simpl. exact IH.
  - by intros [= <- _].
Qed.

(** A pass that reaches the end of the body showed one frame. *)
Lemma body_Next_shown (buf buf' : list gray) (it : iteration) t :
  body buf it = (t, Ok (Next buf')) → omap shown t = [tt].
Proof.
  unfold OpticalFlow.body. destruct (read it) as [f|]; [|discriminate].
  rewrite !bind_unfold. intros H.
  apply bind_Ok_inv in H as (t1 & [prev rest] & t2 & Hpop & H & ->).
  unfold lift in Hpop. injection Hpop as <- _.
  apply bind_Ok_inv in H as (t3 & p & t4 & Hflow & H & ->).
  apply bind_Ok_inv in H as (t5 & [] & t6 & Hgood & H & ->).
  apply bind_Ok_inv in H as (t7 & [] & t8 & Hemit & H & ->).
  injection Hemit as <-.
  pose proof (flow_block_not_shown it (cvtColor f) prev (corners it)) as Hns.
  unfold trace_of in Hns. rewrite Hflow in Hns. simpl in Hns.
  apply show_good_features_not_shown in Hgood.
  rewrite !omap_app, Hns, Hgood. simpl.
  destruct (esc_pressed (wait_key it)); [discriminate|].
  by injection H as <- _.
Qed.

Lemma passes_shown (stream : list iteration) (buf0 buf : list gray) t :
  passes buf0 stream = Some (t, buf) →
  length (omap shown t) = length stream.
Proof.
  revert buf0 t. induction stream as [|it stream IH]; intros buf0 t; simpl.
  - by intros [= <- _].
  - destruct (body buf0 it) as [t1 [[buf1|]|e]] eqn:Hbody; try discriminate.
    destruct (passes buf1 stream) as [[t2 final]|] eqn:Hrest; [|discriminate].
    intros [= <- <-]. rewrite omap_app, length_app.
    rewrite (body_Next_shown _ _ _ _ Hbody), (IH _ _ Hrest). done.
Qed.

(** A read that reports no frame ends the loop: the passes before it
    stand, the message is printed, nothing is raised. *)
Lemma flow_loop_read_failure (pre rest : list iteration) (it : iteration)
    (buf0 buf : list gray) t :
  passes buf0 pre = Some (t, buf) → read it = None →
  loop buf0 (pre ++ it :: rest) = (t ++ [Print "End of video."], Ok tt).
Proof.
  revert buf0 t. induction pre as [|p pre IH]; intros buf0 t; simpl.
  - intros [= <- _] Hread. unfold OpticalFlow.body. by rewrite Hread.
  - destruct (body buf0 p) as [t1 [[buf1|]|e]] eqn:Hbody; try discriminate.
    destruct (passes buf1 pre) as [[t2 final]|] eqn:Hrest; [|discriminate].
    intros [= <- <-] Hread. rewrite bind_unfold, bind_Ok. cbn [fst snd].
    rewrite (IH _ _ Hrest Hread). cbn [fst snd].
    by rewrite <- app_assoc.
Qed.

Lemma flow_main_read_failure (pre rest : list iteration) (it : iteration)
    (buf : list gray) t :
  passes [] pre = Some (t, buf) → read it = None →
  main (pre ++ it :: rest)
  = (t ++ [Print "End of video."; DestroyAllWindows; Print "Tracking ended."],
     Ok tt).
Proof.
  intros Hpre Hread. unfold OpticalFlow.main.
  rewrite (flow_loop_read_failure _ _ _ _ _ _ Hpre Hread).
  simpl. by rewrite <- app_assoc.
Qed.

(** C1. The history buffer of the flow loop never holds more than
    K = 5 grayscale frames: not when a pass starts, not after the
    reference has been popped, not after the current frame has been
    appended.  After the first K passes have each appended their
    frame, the pass that handles frame K+1 pops the grayscale of
    frame 1, the oldest of them, and hands it to the flow call as the
    frame to compare with. *)
Theorem history_buffer_bounded_fifo (stream : list iteration) t buf :
  passes [] stream = Some (t, buf) →
  frames_to_calc = 5%nat
  ∧ (length buf ≤ frames_to_calc)%nat
  ∧ (∀ prev rest g,
       pop_reference buf = Ok (prev, rest) →
       (length rest ≤ frames_to_calc)%nat
       ∧ (length (deque_append frames_to_calc rest g) ≤ frames_to_calc)%nat)
  ∧ (length stream = frames_to_calc →
     ∃ it1 frame1,
       stream !! 0%nat = Some it1 ∧ read it1 = Some frame1
       ∧ pop_reference buf = Ok (Some (cvtColor frame1), drop 1 buf)
       ∧ ∀ it frame6,
           read it = Some frame6 →
           ∃ t', trace_of (body buf it)
                 = CalcOpticalFlowPyrLK (cvtColor frame6) (cvtColor frame1)
                     (corners it) :: t').
Proof.
  intros Hrun.
  assert (Hbound : (length buf ≤ frames_to_calc)%nat).
  { apply (passes_bounded _ _ _ _ Hrun). simpl. lia. }
  split; [reflexivity|]. split; [exact Hbound|]. split.
  - intros prev rest g Hpop. split; [|apply deque_append_length].
    apply pop_reference_length in Hpop. lia.
  - intros Hlen.
    destruct (passes_filling _ _ _ _ Hrun) as (frames & Hall & Hbuf).
    { simpl. lia. }
    simpl in Hbuf. subst buf.
    pose proof (Forall2_length _ _ _ Hall) as Hlen'.
    destruct Hall as [|it1 frame1 stream' frames' Hread Hall];
      [discriminate Hlen|].
    exists it1, frame1. split; [reflexivity|]. split; [exact Hread|].
    assert (Hpop : pop_reference (map cvtColor (frame1 :: frames'))
                   = Ok (Some (cvtColor frame1),
                         drop 1 (map cvtColor (frame1 :: frames')))).
    { simpl. rewrite drop_0. apply pop_reference_full.
      rewrite length_map. simpl in Hlen, Hlen'. lia. }
    split; [exact Hpop|].
    intros it frame6 Hread6. exact (body_flow_call _ _ _ _ _ Hread6 Hpop).
Qed.

(** C7 (amended). On a pass that runs the flow estimation and gets
    a reply of matching size, every pair of filtered points gives one
    arrow, drawn from the flow-result (destination) point to the
    detected (source) point it belongs to, with a disc of radius 10
    on the flow-result point; after the arrows, discs of radius 5 are
    drawn on the filtered detected points, and the frame is shown. *)
Theorem flow_arrows_end_at_detected_points (buf rest : list gray)
    (it : iteration) f g p_src p_dst :
  read it = Some f → pop_reference buf = Ok (Some g, rest) →
  corners it = Some p_src → flow_points it = Some p_dst →
  length p_src = length (flow_status it) →
  length p_dst = length (flow_status it) →
  let mask := status_mask (flow_status it) in
  let fsrc := compress mask p_src in
  let fdst := compress mask p_dst in
  ∃ arrows tail c,
    body buf it
    = (CalcOpticalFlowPyrLK (cvtColor f) g (Some p_src)
         :: arrows
         ++ map (fun corner => Circle (at_pixel corner) 5 (0, 0, 255)) fsrc
         ++ Imshow :: tail, Ok c)
    ∧ length arrows = (2 * length fsrc)%nat
    ∧ ∀ (i : nat) (src dst : point),
        fsrc !! i = Some src → fdst !! i = Some dst →
        arrows !! (2 * i)%nat
        = Some (ArrowedLine (at_pixel dst) (at_pixel src)
                  (random_colors it (i mod 100)%nat))
        ∧ arrows !! (2 * i + 1)%nat
          = Some (Circle (at_pixel dst) 10 (random_colors it (i mod 100)%nat)).
Proof.
  intros Hread Hpop Hcorners Hflow Hls Hld mask fsrc fdst.
  exists (show_lines_from (random_colors it) 0 fsrc fdst),
         (if esc_pressed (wait_key it) then [] else [Sleep]),
         (if esc_pressed (wait_key it) then Break
          else Next (deque_append frames_to_calc rest (cvtColor f))).
  split; [by apply body_flow|].
  assert (Hmask : length mask = length (flow_status it))
    by (unfold mask, status_mask; apply length_map).
  split.
  - apply show_lines_from_length. apply compress_length_mask; congruence.
  - intros i src dst Hs Hd.
    exact (show_lines_from_lookup (random_colors it) 0 i fsrc fdst src dst Hs Hd).
Qed.

(** C8. A pass on which the corner detector answers [None] never
    reaches the display: it stops on an exception.  With no reference
    frame yet, that is the TypeError of [for corner in None], raised
    before anything was drawn. *)
Theorem null_corners_abort_pass (buf : list gray) (it : iteration) f :
  read it = Some f → corners it = None →
  ∃ t e,
    body buf it = (t, Raise e) ∧ omap shown t = []
    ∧ ((length buf < frames_to_calc)%nat →
       t = [] ∧ e = TypeError "'NoneType' object is not iterable").
Proof.
  intros Hread Hcorners. unfold OpticalFlow.body. rewrite Hread, Hcorners.
  destruct (le_lt_dec frames_to_calc (length buf)) as [Hfull|Hshort].
  - destruct buf as [|g rest]; [simpl in Hfull; unfold frames_to_calc in Hfull; lia|].
    rewrite pop_reference_full by (simpl in Hfull; lia).
    rewrite lift_Ok_bind. cbv beta iota. unfold OpticalFlow.flow_block.
    destruct (flow_points it) as [p_dst|].
    + destruct (bool_index p_dst (status_mask (flow_status it))) as [fdst|e];
        simpl; eexists _, _; (split; [reflexivity|]); (split; [done|]);
        intros; unfold frames_to_calc in *; simpl in *; lia.
    + simpl. eexists _, _. split; [reflexivity|]. split; [done|].
      intros; unfold frames_to_calc in *; simpl in *; lia.
  - rewrite pop_reference_short by done.
    rewrite lift_Ok_bind. cbv beta iota. simpl.
    eexists _, _. split; [reflexivity|]. split; [done|]. done.
Qed.

(** The other half of C8: an empty array of corners goes through the
    pass and draws nothing. *)
Lemma empty_corners_draw_nothing (buf : list gray) (it : iteration) f :
  read it = Some f → corners it = Some [] → (length buf < frames_to_calc)%nat →
  body buf it
  = (Imshow :: (if esc_pressed (wait_key it) then [] else [Sleep]),
     Ok (if esc_pressed (wait_key it) then Break
         else Next (deque_append frames_to_calc buf (cvtColor f)))).
Proof.
  intros Hread Hcorners Hshort. unfold OpticalFlow.body.
  rewrite Hread, Hcorners, pop_reference_short by done.
  rewrite lift_Ok_bind. cbv beta iota. simpl.
  by destruct (esc_pressed (wait_key it)).
Qed.

End OpticalFlowFacts.







(** ** numpy slices and the overlay *)

Lemma slice_range_inside (n : nat) (lo len : Z) :
  0 ≤ lo → 0 ≤ len → lo + len ≤ Z.of_nat n →
  slice_range n lo (lo + len) = (Z.to_nat lo, Z.to_nat len).
Proof.
  intros Hlo Hlen Hn. unfold slice_range, adjust_index.
  destruct (Z.ltb_spec lo 0), (Z.ltb_spec (lo + len) 0); try lia.
  f_equal; f_equal; lia.
Qed.

Lemma slice_range_origin (n : nat) (len : Z) :
  0 ≤ len ≤ Z.of_nat n → slice_range n 0 len = (0%nat, Z.to_nat len).
Proof.
  intros H. pose proof (slice_range_inside n 0 len) as Hs.
  rewrite Z.add_0_l in Hs. rewrite Hs by lia. reflexivity.
Qed.

Lemma imap_compose {A B C} (f : nat → B → C) (g : nat → A → B) (l : list A) :
  imap f (imap g l) = imap (fun k x => f k (g k x)) l.
Proof.
  apply list_eq. intros i. rewrite !list_lookup_imap.
  by destruct (l !! i).
Qed.

Lemma imap_keep {A} (l : list A) : imap (fun _ p => p) l = l.
Proof. induction l as [|a l IH]; [done|]. rewrite imap_cons. f_equal. exact IH. Qed.

Section ArrayFacts.
Context {pixel : Type}.
Implicit Types a v bg fg : ndarray pixel.

Lemma getslice_origin_shape a (h w : Z) :
  0 ≤ h ≤ Z.of_nat (height a) → 0 ≤ w ≤ Z.of_nat (width a) →
  height (getslice a 0 h 0 w) = Z.to_nat h
  ∧ width (getslice a 0 h 0 w) = Z.to_nat w.
Proof.
  intros Hh Hw. unfold getslice.
  rewrite (slice_range_origin (height a) h) by lia.
  rewrite (slice_range_origin (width a) w) by lia.
  unfold height in *. simpl. split; [|done].
  rewrite length_fmap, length_take, length_drop. lia.
Qed.

Lemma getslice_origin_pixel a (h w : Z) (r c : nat) :
  0 ≤ h ≤ Z.of_nat (height a) → 0 ≤ w ≤ Z.of_nat (width a) →
  (r < Z.to_nat h)%nat → (c < Z.to_nat w)%nat →
  pixel_at (getslice a 0 h 0 w) r c = pixel_at a r c.
Proof.
  intros Hh Hw Hr Hc. unfold getslice.
  rewrite (slice_range_origin (height a) h) by lia.
  rewrite (slice_range_origin (width a) w) by lia.
  unfold pixel_at. simpl.
  rewrite list_lookup_fmap. rewrite lookup_take_lt by done.
  rewrite drop_0. destruct (rows a !! r) as [row|]; simpl; [|done].
  apply lookup_take_lt. exact Hc.
Qed.

Lemma getslice_origin_twice a (h w : Z) :
  0 ≤ h ≤ Z.of_nat (height a) → 0 ≤ w ≤ Z.of_nat (width a) →
  getslice (getslice a 0 h 0 w) 0 h 0 w = getslice a 0 h 0 w.
Proof.
  intros Hh Hw.
  destruct (getslice_origin_shape a h w Hh Hw) as [Hheight Hwidth].
  unfold getslice at 1. rewrite Hheight, Hwidth.
  rewrite (slice_range_origin (Z.to_nat h) h) by lia.
  rewrite (slice_range_origin (Z.to_nat w) w) by lia.
  unfold getslice.
  rewrite (slice_range_origin (height a) h) by lia.
  rewrite (slice_range_origin (width a) w) by lia.
  simpl. f_equal. rewrite !drop_0.
  rewrite <- fmap_take, take_take, Nat.min_id.
  rewrite <- list_fmap_compose. apply list_fmap_ext. intros _ row _. simpl.
  by rewrite !drop_0, take_take, Nat.min_id.
Qed.

Lemma pixel_at_None_row a (r c : nat) :
  (height a ≤ r)%nat → pixel_at a r c = None.
Proof.
  intros Hr. unfold pixel_at. by rewrite lookup_ge_None_2.
Qed.

Lemma pixel_at_None_col a (r c : nat) :
  well_shaped a → (width a ≤ c)%nat → pixel_at a r c = None.
Proof.
  intros Hwf Hc. unfold pixel_at.
  destruct (rows a !! r) as [row|] eqn:Hrow; simpl; [|done].
  apply lookup_ge_None_2.
  rewrite (proj1 (Forall_lookup _ _) Hwf r row Hrow). exact Hc.
Qed.

(** Slice assignment keeps the shape of the array written to. *)
Lemma setslice_shape a v (r0 r1 c0 c1 : Z) out :
  setslice a r0 r1 c0 c1 v = Ok out →
  height out = height a ∧ width out = width a
  ∧ (well_shaped a → well_shaped out).
Proof.
  unfold setslice.
  destruct (slice_range (height a) r0 r1) as [rlo rn].
  destruct (slice_range (width a) c0 c1) as [clo cn].
  destruct (_ && _); [|discriminate]. intros [= <-].
  unfold height, well_shaped. simpl. rewrite length_imap.
  split; [done|]. split; [done|].
  rewrite !Forall_lookup. intros Hwf r row.
  rewrite list_lookup_imap_Some. intros (row0 & Hrow0 & ->).
  destruct (within rlo rn r); [rewrite length_imap|]; eauto.
Qed.

Lemma clipped_paste_shape bg fg (x y : Z) :
  height (clipped_paste bg fg x y) = height bg
  ∧ width (clipped_paste bg fg x y) = width bg
  ∧ (well_shaped bg → well_shaped (clipped_paste bg fg x y)).
Proof.
  unfold height, well_shaped, clipped_paste. simpl. rewrite length_imap.
  split; [done|]. split; [done|].
  rewrite !Forall_lookup. intros Hwf r row.
  rewrite list_lookup_imap_Some. intros (row0 & Hrow0 & ->).
  rewrite length_imap. eauto.
Qed.

(** With the offset inside the background, lines 27-31 are the
    clipped paste. *)
Lemma overlay_pixels_clipped bg fg (x y : Z) :
  well_shaped bg → well_shaped fg →
  0 ≤ x ≤ Z.of_nat (width bg) → 0 ≤ y ≤ Z.of_nat (height bg) →
  overlay_pixels bg fg x y = Ok (clipped_paste bg fg x y).
Proof.
  intros Hbg Hfg Hx Hy. unfold overlay_pixels.
  set (w := Z.min (Z.of_nat (width fg)) (Z.of_nat (width bg) - x)).
  set (h := Z.min (Z.of_nat (height fg)) (Z.of_nat (height bg) - y)).
  assert (Hw : 0 ≤ w ≤ Z.of_nat (width fg)) by (unfold w; lia).
  assert (Hh : 0 ≤ h ≤ Z.of_nat (height fg)) by (unfold h; lia).
  assert (Hv : getslice
                 (if (w <? Z.of_nat (width fg)) || (h <? Z.of_nat (height fg))
                  then getslice fg 0 h 0 w else fg) 0 h 0 w
               = getslice fg 0 h 0 w).
  { destruct (_ || _); [by apply getslice_origin_twice | done]. }
  rewrite Hv. clear Hv.
  destruct (getslice_origin_shape fg h w Hh Hw) as [Hvh Hvw].
  unfold setslice.
  rewrite (slice_range_inside (height bg) y h) by (unfold h; lia).
  rewrite (slice_range_inside (width bg) x w) by (unfold w; lia).
  rewrite Hvh, Hvw. unfold broadcasts.
  rewrite (bool_decide_eq_true_2 (Z.to_nat h = Z.to_nat h)) by done.
  rewrite (bool_decide_eq_true_2 (Z.to_nat w = Z.to_nat w)) by done.
  cbn [andb orb].
  unfold clipped_paste. do 2 f_equal.
  apply imap_ext. intros r row Hrow.
  assert (Hr : (r < height bg)%nat) by (eapply lookup_lt_Some; exact Hrow).
  assert (Hlen : length row = width bg)
    by exact (proj1 (Forall_lookup _ _) Hbg r row Hrow).
  unfold within.
  destruct (bool_decide_reflect (Z.to_nat y ≤ r)%nat) as [Hr1|Hr1];
    [destruct (bool_decide_reflect (r < Z.to_nat y + Z.to_nat h)%nat)
       as [Hr2|Hr2]|]; cbn [andb].
  - apply imap_ext. intros c p Hp.
    assert (Hc : (c < width bg)%nat)
      by (rewrite <- Hlen; eapply lookup_lt_Some; exact Hp).
    destruct (bool_decide_reflect (Z.to_nat x ≤ c)%nat) as [Hc1|Hc1];
      [destruct (bool_decide_reflect (c < Z.to_nat x + Z.to_nat w)%nat)
         as [Hc2|Hc2]|]; cbn [andb].
    + f_equal. unfold pixel_atZ.
      destruct (Z.leb_spec 0 (Z.of_nat r - y)); [|lia].
      destruct (Z.leb_spec 0 (Z.of_nat c - x)); [|lia]. cbn [andb].
      replace (source_index (Z.to_nat h) (r - Z.to_nat y))
        with (r - Z.to_nat y)%nat
        by (unfold source_index; case_decide; lia).
      replace (source_index (Z.to_nat w) (c - Z.to_nat x))
        with (c - Z.to_nat x)%nat
        by (unfold source_index; case_decide; lia).
      rewrite getslice_origin_pixel by (done || lia).
      f_equal; lia.
    + unfold pixel_atZ.
      destruct (Z.leb_spec 0 (Z.of_nat r - y)); [|done].
      destruct (Z.leb_spec 0 (Z.of_nat c - x)); [|done]. cbn [andb].
      rewrite pixel_at_None_col; [done | done | unfold w in *; lia].
    + unfold pixel_atZ.
      destruct (Z.leb_spec 0 (Z.of_nat c - x)); [lia|].
      by rewrite andb_false_r.
  - rewrite <- (imap_keep row) at 1. apply imap_ext. intros c p _.
    unfold pixel_atZ.
    destruct (Z.leb_spec 0 (Z.of_nat r - y)); [|done].
    destruct (Z.leb_spec 0 (Z.of_nat c - x)); [|done]. cbn [andb].
    rewrite pixel_at_None_row; [done | unfold h in *; lia].
  - rewrite <- (imap_keep row) at 1. apply imap_ext. intros c p _.
    unfold pixel_atZ. destruct (Z.leb_spec 0 (Z.of_nat r - y)); [lia|done].
Qed.

(** With the offset inside the background the overlay never raises. *)
Lemma overlay_pixels_inside bg fg (x y : Z) :
  0 ≤ x ≤ Z.of_nat (width bg) → 0 ≤ y ≤ Z.of_nat (height bg) →
  ∃ out, overlay_pixels bg fg x y = Ok out.
Proof.
  intros Hx Hy. unfold overlay_pixels.
  set (w := Z.min (Z.of_nat (width fg)) (Z.of_nat (width bg) - x)).
  set (h := Z.min (Z.of_nat (height fg)) (Z.of_nat (height bg) - y)).
  assert (Hw : 0 ≤ w ≤ Z.of_nat (width fg)) by (unfold w; lia).
  assert (Hh : 0 ≤ h ≤ Z.of_nat (height fg)) by (unfold h; lia).
  assert (Hv : getslice
                 (if (w <? Z.of_nat (width fg)) || (h <? Z.of_nat (height fg))
                  then getslice fg 0 h 0 w else fg) 0 h 0 w
               = getslice fg 0 h 0 w).
  { destruct (_ || _); [by apply getslice_origin_twice | done]. }
  rewrite Hv. clear Hv.
  destruct (getslice_origin_shape fg h w Hh Hw) as [Hvh Hvw].
  unfold setslice.
  rewrite (slice_range_inside (height bg) y h) by (unfold h; lia).
  rewrite (slice_range_inside (width bg) x w) by (unfold w; lia).
  rewrite Hvh, Hvw. unfold broadcasts.
  rewrite (bool_decide_eq_true_2 (Z.to_nat h = Z.to_nat h)) by done.
  rewrite (bool_decide_eq_true_2 (Z.to_nat w = Z.to_nat w)) by done.
  cbn [andb orb]. eauto.
Qed.

Lemma overlay_pixels_shape bg fg (x y : Z) out :
  overlay_pixels bg fg x y = Ok out →
  height out = height bg ∧ width out = width bg
  ∧ (well_shaped bg → well_shaped out).
Proof. unfold overlay_pixels. apply setslice_shape. Qed.

(** overlay_image writes through its first argument and hands that
    very reference back. *)
Lemma overlay_image_Ok (σ σ' : gmap loc (ndarray pixel))
    (background foreground r : loc) (x y : Z) :
  overlay_image σ background foreground x y = Ok (σ', r) →
  ∃ bg fg out,
    σ !! background = Some bg ∧ σ !! foreground = Some fg
    ∧ overlay_pixels bg fg x y = Ok out
    ∧ σ' = <[background := out]> σ ∧ r = background.
Proof.
  unfold overlay_image.
  destruct (σ !! background) as [bg|]; [|discriminate].
  destruct (σ !! foreground) as [fg|]; [|discriminate].
  destruct (overlay_pixels bg fg x y) as [out|e] eqn:Hout; [|discriminate].
  intros [= <- <-]. by exists bg, fg, out.
Qed.

(** C3 (amended). overlay_image leaves the background with the shape
    it had, whatever the offset.  For an offset inside the background,
    [0 <= x <= bg_width] and [0 <= y <= bg_height], it succeeds and
    the background then holds the foreground laid at (x, y) and cut to
    the part that fits, every other pixel being kept. *)
Theorem overlay_image_clips_inside (σ : gmap loc (ndarray pixel))
    (background foreground : loc) bg fg (x y : Z) :
  σ !! background = Some bg → σ !! foreground = Some fg →
  well_shaped bg → well_shaped fg →
  (∀ σ' r,
     overlay_image σ background foreground x y = Ok (σ', r) →
     ∃ out, σ' !! background = Some out
            ∧ height out = height bg ∧ width out = width bg
            ∧ well_shaped out)
  ∧ (0 ≤ x ≤ Z.of_nat (width bg) → 0 ≤ y ≤ Z.of_nat (height bg) →
     overlay_image σ background foreground x y
     = Ok (<[background := clipped_paste bg fg x y]> σ, background)).
Proof.
  intros Hbg Hfg Hwbg Hwfg. split.
  - intros σ' r Hov.
    apply overlay_image_Ok in Hov
      as (bg' & fg' & out & Hbg' & Hfg' & Hout & -> & ->).
    assert (bg' = bg) as -> by congruence.
    exists out. rewrite lookup_insert_eq. split; [done|].
    destruct (overlay_pixels_shape _ _ _ _ _ Hout) as (Hh & Hw & Hwf).
    auto.
  - intros Hx Hy. unfold overlay_image. rewrite Hbg, Hfg.
    by rewrite overlay_pixels_clipped.
Qed.

End ArrayFacts.

(** ** tracker_compare.py: drawing and the loop *)

Lemma alter_twice {A} (f g : A → A) (m : gmap loc A) (i : loc) :
  alter f i (alter g i m) = alter (fun x => f (g x)) i m.
Proof.
  apply map_eq. intros j. destruct (decide (i = j)) as [->|Hne].
  - rewrite !lookup_alter_eq. by destruct (m !! j).
  - by rewrite !lookup_alter_ne.
Qed.

Section TrackerCompareFacts.
Import TrackerCompare.
Context {pixel : Type}.
Variable rectangle : ndarray pixel → Z * Z → Z * Z → color → ndarray pixel.
Variable putText : ndarray pixel → string → Z * Z → color → ndarray pixel.
Implicit Types σ : gmap loc (ndarray pixel).

#[local] Abbreviation draw_rect := (draw_rect rectangle putText).
#[local] Abbreviation draw_boxes := (draw_boxes rectangle putText).
#[local] Abbreviation paint_box := (paint_box rectangle putText).
#[local] Abbreviation paint_boxes := (paint_boxes rectangle putText).
#[local] Abbreviation body := (body rectangle putText).
#[local] Abbreviation loop := (loop rectangle putText).
#[local] Abbreviation main := (main rectangle putText).
#[local] Abbreviation passes := (passes rectangle putText).

Lemma mod4_cases (i : Z) :
  i mod 4 = 0 ∨ i mod 4 = 1 ∨ i mod 4 = 2 ∨ i mod 4 = 3.
Proof. pose proof (Z.mod_pos_bound i 4). lia. Qed.

(** draw_rect never fails on its table lookups, and puts the label at
    the corner the cycle assigns to [index]. *)
Lemma draw_rect_events σ (frame_2_draw : loc) (x y w h : Z) (col : color)
    (text : string) (index : Z) :
  draw_rect σ frame_2_draw (x, y, w, h) col text index
  = ([ Rectangle frame_2_draw (x, y) (x + w, y + h) col;
       PutText frame_2_draw text (label_org (x, y, w, h) index) col ],
     Ok (alter (fun img => putText img text (label_org (x, y, w, h) index) col)
               frame_2_draw
               (alter (fun img => rectangle img (x, y) (x + w, y + h) col)
                      frame_2_draw σ))).
Proof.
  unfold TrackerCompare.draw_rect, label_org, corner_offset.
  destruct (mod4_cases index) as [H|[H|[H|H]]]; rewrite H; reflexivity.
Qed.

(** The boxes leave their events on the trace and their paint in the
    array drawn on, and nowhere else. *)
Lemma draw_boxes_events σ (output_frame : loc) (i : nat) (bboxes : list box) :
  draw_boxes σ output_frame i bboxes
  = (concat (imap (fun k => box_events output_frame (i + k)) bboxes),
     Ok (alter (fun img => paint_boxes img i bboxes) output_frame σ)).
Proof.
  revert σ i. induction bboxes as [|b bboxes IH]; intros σ i.
  - cbn [TrackerCompare.draw_boxes TrackerCompare.paint_boxes].
    by rewrite alter_id.
  - cbn [TrackerCompare.draw_boxes TrackerCompare.paint_boxes].
    destruct b as [text [[[x y] w] h] col].
    cbn [box_bbox box_color box_tracker].
    rewrite draw_rect_events, bind_unfold, bind_Ok, IH. cbn [fst snd].
    rewrite imap_cons. cbn [concat]. unfold box_events at 2.
    cbn [box_bbox box_color box_tracker]. rewrite Nat.add_0_r.
    cbn [app]. rewrite !alter_twice. do 4 f_equal.
    apply imap_ext. intros k b _. simpl. f_equal. lia.
Qed.

Lemma update_trackers_events (ts : list tracker) (pos : nat) (frame : loc)
    (update : nat → bool * bbox) (bboxes : list box) :
  update_trackers ts pos frame update bboxes
  = ((fun t => TrackerUpdate (name t) frame) <$> ts,
     Ok (bboxes ++ survivors pos ts update)).
Proof.
  revert pos bboxes. induction ts as [|t ts IH]; intros pos bboxes.
  - unfold survivors. simpl. by rewrite app_nil_r.
  - cbn [update_trackers]. rewrite emit_bind.
    unfold survivors. cbn [length seq zip zip_with omap list_omap].
    destruct (update pos) as [success bbox] eqn:Hupd.
    rewrite IH. cbn [fst snd]. rewrite fmap_cons. f_equal.
    destruct success; cbn [fst snd]; [|done].
    unfold survivors. by rewrite <- app_assoc.
Qed.

(** What the drawing of the boxes leaves on a trace, read back. *)
Lemma box_events_read {X} (g : event → option X) (h : nat → box → list X)
    (output_frame : loc) :
  (∀ k b, omap g (box_events output_frame k b) = h k b) →
  ∀ (i : nat) (bboxes : list box),
    omap g (concat (imap (fun k => box_events output_frame (i + k)) bboxes))
    = concat (imap (fun k => h (i + k)%nat) bboxes).
Proof.
  intros Hg i bboxes. revert i.
  induction bboxes as [|b bboxes IH]; intros i; [done|].
  rewrite !imap_cons. cbn [concat]. rewrite omap_app, Hg. f_equal.
  rewrite (imap_ext ((fun k => box_events output_frame (i + k)) ∘ S)
                    (fun k => box_events output_frame (S i + k)))
    by (intros k b' _; simpl; f_equal; lia).
  rewrite (imap_ext ((fun k => h (i + k)%nat) ∘ S) (fun k => h (S i + k)%nat))
    by (intros k b' _; simpl; f_equal; lia).
  apply IH.
Qed.

Lemma concat_imap_nil {X} (bboxes : list box) (i : nat) :
  concat (imap (fun k (_ : box) => @nil X) bboxes) = [].
Proof. induction bboxes as [|b bboxes IH]; [done|]. rewrite imap_cons. exact IH. Qed.

Lemma concat_imap_singleton {X} (f : nat → box → X) (bboxes : list box) :
  concat (imap (fun k b => [f k b]) bboxes) = imap f bboxes.
Proof.
  revert f. induction bboxes as [|b bboxes IH]; intros f; [done|].
  rewrite !imap_cons. cbn [concat app]. f_equal. apply IH.
Qed.

Lemma updates_read {X} (g : event → option X) (h : tracker → option X)
    (frame : loc) (ts : list tracker) :
  (∀ t, g (TrackerUpdate (name t) frame) = h t) →
  omap g ((fun t => TrackerUpdate (name t) frame) <$> ts) = omap h ts.
Proof.
  intros Hg. induction ts as [|t ts IH]; [done|].
  rewrite fmap_cons. cbn [omap list_omap]. by rewrite Hg, IH.
Qed.

Lemma omap_nothing {X Y} (l : list X) : omap (fun _ => @None Y) l = [].
Proof. by induction l. Qed.

Lemma omap_all {X Y} (f : X → Y) (l : list X) :
  omap (fun x => Some (f x)) l = f <$> l.
Proof. induction l as [|x l IH]; [done|]. simpl. by f_equal. Qed.

(** A tracker is among the survivors exactly when its update
    succeeded. *)
Lemma survivors_length (pos : nat) (ts : list tracker)
    (update : nat → bool * bbox) :
  length (survivors pos ts update)
  = length (filter (fun i => fst (update i) = true) (seq pos (length ts))).
Proof.
  unfold survivors. revert pos.
  induction ts as [|t ts IH]; intros pos; [done|].
  cbn [length seq zip zip_with omap list_omap]. rewrite filter_cons.
  destruct (fst (update pos)) eqn:Hs.
  - rewrite decide_True by done. simpl. f_equal. apply IH.
  - rewrite decide_False by done. apply IH.
Qed.

Lemma survivors_all (pos : nat) (ts : list tracker)
    (update : nat → bool * bbox) :
  (∀ i, fst (update i) = true) →
  survivors pos ts update
  = imap (fun k t => {| box_tracker := name t; box_bbox := snd (update (pos + k)%nat);
                        box_color := tracker_color t |}) ts.
Proof.
  intros Hall. unfold survivors. revert pos.
  induction ts as [|t ts IH]; intros pos; [done|].
  cbn [length seq zip zip_with omap list_omap]. rewrite Hall, imap_cons.
  rewrite Nat.add_0_r. f_equal. rewrite IH.
  apply imap_ext. intros k t' _. simpl. do 3 f_equal. lia.
Qed.


(** One pass over a frame that was read, spelled out: which objects
    it allocates, what it leaves on the trace and in the store. *)
Lemma body_frame (ts : list tracker) (roi_image : loc) σ
    (it : @pass pixel) (pixels roi_pixels : ndarray pixel) :
  read it = Some pixels → σ !! roi_image = Some roi_pixels →
  let frame := fresh (dom σ) in
  let σ1 := <[frame := pixels]> σ in
  let output_frame := fresh (dom σ1) in
  ∃ out,
    overlay_pixels pixels roi_pixels 0 0 = Ok out
    ∧ frame ≠ output_frame ∧ frame ≠ roi_image ∧ output_frame ≠ roi_image
    ∧ body ts roi_image σ it
      = (((fun t => TrackerUpdate (name t) frame) <$> ts)
           ++ concat (imap (box_events output_frame)
                           (survivors 0 ts (update it)))
           ++ [Imshow output_frame; WriterWrite output_frame]
           ++ (if esc_pressed (wait_key it) then [] else [Sleep]),
         Ok (if esc_pressed (wait_key it) then Break
             else Next (<[output_frame :=
                            paint_boxes out 0 (survivors 0 ts (update it))]>
                          (<[output_frame := pixels]> σ1)))).
Proof.
  intros Hread Hroi frame σ1 output_frame.
  destruct (overlay_pixels_inside pixels roi_pixels 0 0) as [out Hout];
    [lia | lia |].
  assert (Hf : frame ∉ dom σ) by apply is_fresh.
  assert (Ho : output_frame ∉ dom σ1) by apply is_fresh.
  assert (Hr : roi_image ∈ dom σ) by (apply elem_of_dom; eauto).
  assert (Hfr : frame ≠ roi_image) by set_solver.
  assert (Hor : output_frame ≠ roi_image).
  { intros ->. apply Ho. unfold σ1. rewrite dom_insert_L. set_solver. }
  assert (Hfo : frame ≠ output_frame).
  { intros Heq. apply Ho. rewrite <- Heq. unfold σ1.
    rewrite dom_insert_L. set_solver. }
  assert (Hroi2 : <[output_frame := pixels]> σ1 !! roi_image
                  = Some roi_pixels).
  { rewrite lookup_insert_ne by done. unfold σ1.
    by rewrite lookup_insert_ne. }
  exists out. do 4 (split; [done|]).
  unfold TrackerCompare.body. rewrite Hread. unfold alloc.
  fold frame. fold σ1. fold output_frame. cbv beta iota.
  rewrite update_trackers_events, bind_unfold, bind_Ok. cbn [app fst snd].
  unfold overlay_image. rewrite lookup_insert_eq, Hroi2, Hout.
  rewrite lift_Ok_bind. cbn [fst].
  rewrite draw_boxes_events, alter_insert_eq, bind_unfold, bind_Ok, !emit_bind.
  destruct (esc_pressed (wait_key it)); cbn [fst snd];
    rewrite ?emit_bind; cbn [fst snd mret prog_mret];
    rewrite ?app_nil_r; reflexivity.
Qed.

(** The trace of such a pass, read back. *)
Lemma frame_trace_read (ts : list tracker) (frame output_frame : loc)
    (bboxes : list box) (tail : list event) :
  tail = [] ∨ tail = [Sleep] →
  let t := ((fun t => TrackerUpdate (name t) frame) <$> ts)
             ++ concat (imap (box_events output_frame) bboxes)
             ++ [Imshow output_frame; WriterWrite output_frame] ++ tail in
  omap printed t = []
  ∧ omap updated t = name <$> ts
  ∧ omap rectangle_drawn t = box_corners <$> bboxes
  ∧ omap label_drawn t
    = imap (fun k b => (box_tracker b, label_org (box_bbox b) (Z.of_nat k)))
           bboxes
  ∧ omap written t = [output_frame].
Proof.
  intros Htail t. unfold t. rewrite !omap_app.
  assert (Hboxes : ∀ X (g : event → option X) (h : nat → box → list X),
            (∀ k b, omap g (box_events output_frame k b) = h k b) →
            omap g (concat (imap (box_events output_frame) bboxes))
            = concat (imap h bboxes)).
  { intros X g h Hg. exact (box_events_read g h output_frame Hg 0 bboxes). }
  repeat split.
  - rewrite (updates_read printed (fun _ => None)) by done.
    rewrite omap_nothing.
    rewrite (Hboxes _ printed (fun _ _ => []))
      by (by intros k [text [[[x y] w] h] col]).
    rewrite concat_imap_nil by exact 0%nat.
    by destruct Htail as [-> | ->].
  - rewrite (updates_read updated (fun t => Some (name t))) by done.
    rewrite omap_all.
    rewrite (Hboxes _ updated (fun _ _ => []))
      by (by intros k [text [[[x y] w] h] col]).
    rewrite concat_imap_nil by exact 0%nat.
    destruct Htail as [-> | ->]; simpl; by rewrite app_nil_r.
  - rewrite (updates_read rectangle_drawn (fun _ => None)) by done.
    rewrite omap_nothing.
    rewrite (Hboxes _ rectangle_drawn (fun _ b => [box_corners b]))
      by (by intros k [text [[[x y] w] h] col]).
    rewrite concat_imap_singleton.
    destruct Htail as [-> | ->]; simpl; rewrite app_nil_r;
      clear; induction bboxes as [|b bboxes IH]; simpl; f_equal; auto.
  - rewrite (updates_read label_drawn (fun _ => None)) by done.
    rewrite omap_nothing.
    rewrite (Hboxes _ label_drawn
               (fun k b => [(box_tracker b, label_org (box_bbox b) (Z.of_nat k))]))
      by (by intros k [text [[[x y] w] h] col]).
    rewrite concat_imap_singleton.
    destruct Htail as [-> | ->]; simpl; by rewrite app_nil_r.
  - rewrite (updates_read written (fun _ => None)) by done.
    rewrite omap_nothing.
    rewrite (Hboxes _ written (fun _ _ => []))
      by (by intros k [text [[[x y] w] h] col]).
    rewrite concat_imap_nil by exact 0%nat.
    by destruct Htail as [-> | ->].
Qed.

Lemma esc_tail (key : Z) :
  (if esc_pressed key then [] else [Sleep]) = []
  ∨ (if esc_pressed key then [] else [Sleep]) = [Sleep].
Proof. destruct (esc_pressed key); auto. Qed.

(** C4 (amended). The label of a box sits at the corner the cycle
    [(0,0), (1,0), (0,1), (1,1)] assigns to the position of the box
    among the boxes drawn on that frame, that is among the trackers
    that succeeded; it is the position in the tracker list when every
    tracker succeeded. *)
Theorem labels_cycle_over_drawn_boxes (ts : list tracker) (roi_image : loc) σ
    (it : @pass pixel) (pixels roi_pixels : ndarray pixel) :
  read it = Some pixels → σ !! roi_image = Some roi_pixels →
  ∃ t c,
    body ts roi_image σ it = (t, Ok c)
    ∧ omap label_drawn t
      = imap (fun k b => (box_tracker b, label_org (box_bbox b) (Z.of_nat k)))
             (survivors 0 ts (update it))
    ∧ (∀ k : nat,
         corner_cycle !! (k mod 4)%nat = Some (corner_offset (Z.of_nat k)))
    ∧ ((∀ i, fst (update it i) = true) →
       omap label_drawn t
       = imap (fun i tr => (name tr, label_org (snd (update it i)) (Z.of_nat i)))
              ts).
Proof.
  intros Hread Hroi.
  destruct (body_frame ts roi_image σ it pixels roi_pixels Hread Hroi)
    as (out & _ & _ & _ & _ & Hbody).
  eexists _, _. split; [exact Hbody|].
  destruct (frame_trace_read ts (fresh (dom σ))
              (fresh (dom (<[fresh (dom σ) := pixels]> σ)))
              (survivors 0 ts (update it)) _ (esc_tail (wait_key it)))
    as (_ & _ & _ & Hlabels & _).
  split; [exact Hlabels|]. split.
  - intros k. unfold corner_offset.
    replace (Z.to_nat (Z.of_nat k mod 4)) with (k mod 4)%nat
      by (rewrite <- (Nat2Z.id (k mod 4)); f_equal;
          rewrite Nat2Z.inj_mod; reflexivity).
    pose proof (Nat.mod_upper_bound k 4 ltac:(lia)) as Hlt.
    destruct (k mod 4)%nat as [|[|[|[|n]]]]; try reflexivity; lia.
  - intros Hall. rewrite Hlabels, (survivors_all 0 ts (update it) Hall).
    apply imap_compose.
Qed.

(** C5. On every frame each tracker is asked once, nothing is
    printed and nothing is raised; the boxes drawn are those of the
    trackers whose update succeeded, one each and in order, so a
    tracker that failed leaves no box.  With the three trackers of the
    script and the second one failing, exactly two boxes are drawn,
    labelled KCF and MIL. *)
Theorem failed_tracker_draws_no_box (ts : list tracker) (roi_image : loc) σ
    (it : @pass pixel) (pixels roi_pixels : ndarray pixel) :
  read it = Some pixels → σ !! roi_image = Some roi_pixels →
  ∃ t c,
    body ts roi_image σ it = (t, Ok c)
    ∧ omap printed t = []
    ∧ omap updated t = name <$> ts
    ∧ omap rectangle_drawn t = box_corners <$> survivors 0 ts (update it)
    ∧ fst <$> omap label_drawn t = box_tracker <$> survivors 0 ts (update it)
    ∧ length (omap rectangle_drawn t)
      = length (filter (fun i => fst (update it i) = true)
                       (seq 0 (length ts)))
    ∧ (ts = trackers →
       fst (update it 0%nat) = true → fst (update it 1%nat) = false →
       fst (update it 2%nat) = true →
       length (omap rectangle_drawn t) = 2%nat
       ∧ fst <$> omap label_drawn t = ["KCF"; "MIL"]).
Proof.
  intros Hread Hroi.
  destruct (body_frame ts roi_image σ it pixels roi_pixels Hread Hroi)
    as (out & _ & _ & _ & _ & Hbody).
  eexists _, _. split; [exact Hbody|].
  destruct (frame_trace_read ts (fresh (dom σ))
              (fresh (dom (<[fresh (dom σ) := pixels]> σ)))
              (survivors 0 ts (update it)) _ (esc_tail (wait_key it)))
    as (Hprinted & Hupdated & Hrects & Hlabels & _).
  assert (Hnames : fst <$> omap label_drawn
                     (((fun t => TrackerUpdate (name t) (fresh (dom σ))) <$> ts)
                        ++ concat (imap (box_events
                             (fresh (dom (<[fresh (dom σ) := pixels]> σ))))
                             (survivors 0 ts (update it)))
                        ++ [Imshow (fresh (dom (<[fresh (dom σ) := pixels]> σ)));
                            WriterWrite (fresh (dom (<[fresh (dom σ) := pixels]> σ)))]
                        ++ (if esc_pressed (wait_key it) then [] else [Sleep]))
                   = box_tracker <$> survivors 0 ts (update it)).
  { rewrite Hlabels. apply list_eq. intros i.
    rewrite !list_lookup_fmap, list_lookup_imap.
    by destruct (survivors 0 ts (update it) !! i). }
  do 4 (split; [done|]). split.
  - rewrite Hrects, length_fmap. apply survivors_length.
  - intros -> H0 H1 H2. rewrite Hrects, Hnames, length_fmap.
    unfold survivors, trackers.
    cbn [length seq zip zip_with omap list_omap]. rewrite H0, H1, H2. done.
Qed.

(** C9. When the first read reports no frame the script stops on
    ValueError("Could not read video"), having only opened the
    capture: no ROI prompt, no tracker, no output file. *)
Theorem unreadable_first_frame_aborts (roi : bbox) (stream : list (@pass pixel)) :
  main None roi stream
  = ([VideoCapture testfile], Raise (ValueError "Could not read video")).
Proof. reflexivity. Qed.

(** The store after a pass still holds the ROI snapshot. *)
Lemma body_Next_frame (ts : list tracker) (roi_image : loc) σ σ'
    (it : @pass pixel) (roi_pixels : ndarray pixel) t :
  σ !! roi_image = Some roi_pixels →
  body ts roi_image σ it = (t, Ok (Next σ')) →
  σ' !! roi_image = Some roi_pixels ∧ length (omap written t) = 1%nat.
Proof.
  intros Hroi Hbody.
  destruct (read it) as [pixels|] eqn:Hread;
    [|unfold TrackerCompare.body in Hbody; rewrite Hread in Hbody; discriminate].
  destruct (body_frame ts roi_image σ it pixels roi_pixels Hread Hroi)
    as (out & _ & _ & Hfr & Hor & Hbody').
  rewrite Hbody' in Hbody.
  destruct (frame_trace_read ts (fresh (dom σ))
              (fresh (dom (<[fresh (dom σ) := pixels]> σ)))
              (survivors 0 ts (update it)) _ (esc_tail (wait_key it)))
    as (_ & _ & _ & _ & Hwritten).
  destruct (esc_pressed (wait_key it)); [discriminate|].
  pose proof (f_equal fst Hbody) as Ht. cbn [fst] in Ht.
  pose proof (f_equal snd Hbody) as Hs. cbn [snd] in Hs.
  injection Hs as <-. split.
  - by rewrite !lookup_insert_ne.
  - by rewrite <- Ht, Hwritten.
Qed.

Lemma passes_written (ts : list tracker) (roi_image : loc) σ σ'
    (stream : list (@pass pixel)) (roi_pixels : ndarray pixel) t :
  σ !! roi_image = Some roi_pixels →
  passes ts roi_image σ stream = Some (t, σ') →
  length (omap written t) = length stream.
Proof.
  revert σ t. induction stream as [|it stream IH]; intros σ t Hroi; simpl.
  - by intros [= <- _].
  - destruct (body ts roi_image σ it) as [t1 [[σ1|]|e]] eqn:Hbody;
      try discriminate.
    destruct (passes ts roi_image σ1 stream) as [[t2 final]|] eqn:Hrest;
      [|discriminate].
    intros [= <- <-].
    destruct (body_Next_frame _ _ _ _ _ _ _ Hroi Hbody) as [Hroi1 Hw].
    rewrite omap_app, length_app, Hw, (IH _ _ Hroi1 Hrest). done.
Qed.

Lemma tracker_loop_read_failure (ts : list tracker) (roi_image : loc) σ σ'
    (pre rest : list (@pass pixel)) (it : @pass pixel) t :
  passes ts roi_image σ pre = Some (t, σ') → read it = None →
  loop ts roi_image σ (pre ++ it :: rest)
  = (t ++ [Print "End of video."], Ok tt).
Proof.
  revert σ t. induction pre as [|p pre IH]; intros σ t; simpl.
  - intros [= <- _] Hread. unfold TrackerCompare.body. by rewrite Hread.
  - destruct (body ts roi_image σ p) as [t1 [[σ1|]|e]] eqn:Hbody;
      try discriminate.
    destruct (passes ts roi_image σ1 pre) as [[t2 final]|] eqn:Hrest;
      [|discriminate].
    intros [= <- <-] Hread. rewrite bind_unfold, bind_Ok. cbn [fst snd].
    rewrite (IH _ _ Hrest Hread). cbn [fst snd].
    by rewrite <- app_assoc.
Qed.

Lemma tracker_main_read_failure (first : ndarray pixel) (roi : bbox) σ σ'
    (roi_image : loc) (pre rest : list (@pass pixel)) (it : @pass pixel) t0 t :
  startup (Some first) roi = (t0, Ok (σ, roi_image)) →
  passes trackers roi_image σ pre = Some (t, σ') → read it = None →
  main (Some first) roi (pre ++ it :: rest)
  = (t0 ++ t ++ [Print "End of video."; DestroyAllWindows; WriterRelease;
                 Print "Tracking ended."], Ok tt).
Proof.
  intros Hstart Hpre Hread. unfold TrackerCompare.main. rewrite Hstart.
  rewrite bind_unfold, bind_Ok. cbn [fst snd].
  rewrite (tracker_loop_read_failure _ _ _ _ _ _ _ _ Hpre Hread).
  simpl. by rewrite <- app_assoc.
Qed.

(** What [startup] hands to the loop when the first frame is there. *)
Lemma startup_Ok (first : ndarray pixel) (rx ry rw rh : Z) :
  ∃ t0 σ roi_image,
    startup (Some first) (rx, ry, rw, rh) = (t0, Ok (σ, roi_image))
    ∧ σ !! roi_image = Some (getslice first ry (ry + rh) rx (rx + rw)).
Proof.
  unfold startup, alloc. cbv beta iota zeta.
  eexists _, _, _. split; [reflexivity|]. apply lookup_insert_eq.
Qed.

(** C10. overlay_image returns the reference it was given as
    background; it creates no array, touches no other array, and the
    array behind that reference holds the overlay afterwards.  So in
    the loop, which drops the returned value, [output_frame] itself
    carries the overlay: the boxes of the frame are painted over the
    overlaid array, not over the bare copy, and that is the array
    shown and written, while the frame it was copied from is as it was
    read. *)
Theorem overlay_image_writes_in_place (σ σ' σ'' : gmap loc (ndarray pixel))
    (background foreground r roi_image : loc) (x y : Z)
    (ts : list tracker) (it : @pass pixel) (pixels roi_pixels : ndarray pixel) t :
  overlay_image σ background foreground x y = Ok (σ', r) →
  read it = Some pixels → σ !! roi_image = Some roi_pixels →
  body ts roi_image σ it = (t, Ok (Next σ'')) →
  (r = background
   ∧ dom σ' = dom σ
   ∧ (∀ l, l ≠ background → σ' !! l = σ !! l)
   ∧ ∃ bg fg out,
       σ !! background = Some bg ∧ σ !! foreground = Some fg
       ∧ overlay_pixels bg fg x y = Ok out ∧ σ' !! background = Some out)
  ∧ (∃ frame output_frame out,
       frame ≠ output_frame
       ∧ overlay_pixels pixels roi_pixels 0 0 = Ok out
       ∧ σ'' !! output_frame
         = Some (paint_boxes out 0 (survivors 0 ts (update it)))
       ∧ σ'' !! frame = Some pixels
       ∧ Imshow output_frame ∈ t ∧ WriterWrite output_frame ∈ t).
Proof.
  intros Hov Hread Hroi Hbody. split.
  - apply overlay_image_Ok in Hov
      as (bg & fg & out & Hbg & Hfg & Hout & -> & ->).
    split; [done|]. split.
    { apply dom_insert_lookup_L. eauto. }
    split; [by intros l Hl; rewrite lookup_insert_ne|].
    exists bg, fg, out. by rewrite lookup_insert_eq.
  - destruct (body_frame ts roi_image σ it pixels roi_pixels Hread Hroi)
      as (out & Hout & Hfo & _ & _ & Hbody').
    rewrite Hbody' in Hbody.
    pose proof (f_equal fst Hbody) as Ht. cbn [fst] in Ht.
    pose proof (f_equal snd Hbody) as Hs. cbn [snd] in Hs.
    destruct (esc_pressed (wait_key it)); [discriminate|].
    injection Hs as <-.
    exists (fresh (dom σ)), (fresh (dom (<[fresh (dom σ) := pixels]> σ))), out.
    split; [done|]. split; [done|]. split; [by rewrite lookup_insert_eq|].
    split.
    { do 2 (rewrite lookup_insert_ne by (intros Heq; by apply Hfo)).
      apply lookup_insert_eq. }
    rewrite <- Ht. rewrite !elem_of_app.
    split; right; right; left; [left | right; left].
Qed.

End TrackerCompareFacts.

(** C6. In both scripts a read that reports no frame ends the loop as
    the end of the stream: the passes over the frames read before it
    stand (one frame shown, or written, for each), "End of video." is
    printed, the code after the loop runs, and the run ends without an
    exception. *)
Theorem read_failure_ends_both_loops {frame gray coord pixel : Type}
    (cvtColor : frame → gray) (to_int : coord → Z)
    (pre rest : list (@OpticalFlow.iteration frame coord))
    (it : @OpticalFlow.iteration frame coord)
    (t : list (@OpticalFlow.event gray coord)) (buf : list gray)
    (rectangle : ndarray pixel → Z * Z → Z * Z → TrackerCompare.color
                 → ndarray pixel)
    (putText : ndarray pixel → string → Z * Z → TrackerCompare.color
               → ndarray pixel)
    (first : ndarray pixel) (roi : TrackerCompare.bbox)
    (σ σ' : gmap loc (ndarray pixel)) (roi_image : loc)
    (pre' rest' : list (@TrackerCompare.pass pixel))
    (it' : @TrackerCompare.pass pixel)
    (t0 t' : list TrackerCompare.event) :
  OpticalFlow.passes cvtColor to_int [] pre = Some (t, buf) →
  OpticalFlow.read it = None →
  TrackerCompare.startup (Some first) roi = (t0, Ok (σ, roi_image)) →
  TrackerCompare.passes rectangle putText TrackerCompare.trackers roi_image σ pre' = Some (t', σ') →
  TrackerCompare.read it' = None →
  (OpticalFlow.main cvtColor to_int (pre ++ it :: rest)
   = (t ++ [OpticalFlow.Print "End of video."; OpticalFlow.DestroyAllWindows;
            OpticalFlow.Print "Tracking ended."], Ok tt)
   ∧ length (omap OpticalFlow.shown t) = length pre)
  ∧ (TrackerCompare.main rectangle putText (Some first) roi (pre' ++ it' :: rest')
     = (t0 ++ t' ++ [TrackerCompare.Print "End of video.";
                     TrackerCompare.DestroyAllWindows;
                     TrackerCompare.WriterRelease;
                     TrackerCompare.Print "Tracking ended."], Ok tt)
     ∧ length (omap TrackerCompare.written t') = length pre').
Proof.
  intros Hpre Hread Hstart Hpre' Hread'. split; split.
  - by eapply flow_main_read_failure.
  - by eapply passes_shown.
  - by eapply tracker_main_read_failure.
  - destruct roi as [[[rx ry] rw] rh].
    destruct (startup_Ok first rx ry rw rh) as (t1 & σ1 & roi1 & Hs & Hroi).
    rewrite Hstart in Hs. injection Hs as _ <- <-.
    by eapply passes_written.
Qed.


(** ** The claims on worked inputs *)

Lemma demo_background_well_shaped : well_shaped demo_background.
Proof. repeat constructor. Qed.

Lemma demo_foreground_well_shaped : well_shaped demo_foreground.
Proof. repeat constructor. Qed.

Lemma history_buffer_bounded_fifo_witness :
  ∃ t, OpticalFlow.passes S id [] (map demo_pass [1; 2; 3; 4; 5]%nat)
       = Some (t, [2; 3; 4; 5; 6]%nat)
       ∧ OpticalFlow.pop_reference [2; 3; 4; 5; 6]%nat
         = Ok (Some 2%nat, drop 1 [2; 3; 4; 5; 6]%nat).
Proof.
  eexists. split; [reflexivity|].
  destruct (history_buffer_bounded_fifo S id
              (map demo_pass [1; 2; 3; 4; 5]%nat) _ _ eq_refl)
    as (_ & _ & _ & H).
  destruct (H eq_refl) as (it1 & frame1 & Hit & Hread & Hpop & _).
  injection Hit as <-. injection Hread as <-. exact Hpop.
Defined.


(** C3, as stated, fails off the background: at x = -3 the slice
    bounds wrap around and the foreground lands on columns 1-2, none of
    which it covers; at x = -1, and at x = 5 with a foreground four
    columns wide, numpy refuses the assignment. *)
Lemma overlay_image_negative_offset :
  overlay_image demo_store 1%positive 2%positive (-3) 0
  = Ok (<[1%positive := {| width := 4;
                           rows := [[0; 1; 2; 0]; [0; 3; 4; 0]; [0; 0; 0; 0]] |}]>
          demo_store, 1%positive)
  ∧ clipped_paste demo_background demo_foreground (-3) 0 = demo_background
  ∧ overlay_image demo_store 1%positive 2%positive (-1) 0
    = Raise (ValueError "could not broadcast input array")
  ∧ clipped_paste demo_background demo_foreground (-1) 0
    = {| width := 4; rows := [[2; 0; 0; 0]; [4; 0; 0; 0]; [0; 0; 0; 0]] |}
  ∧ overlay_image demo_store 1%positive 3%positive 5 0
    = Raise (ValueError "could not broadcast input array")
  ∧ clipped_paste demo_background demo_wide 5 0 = demo_background
  ∧ ¬ (∀ x y,
         overlay_image demo_store 1%positive 2%positive x y
         = Ok (<[1%positive := clipped_paste demo_background demo_foreground x y]>
                 demo_store, 1%positive)).
Proof.
  repeat split; try reflexivity.
  intros H. specialize (H (-1) 0). discriminate H.
Qed.

Lemma overlay_image_clips_inside_witness :
  overlay_image demo_store 1%positive 2%positive 3 2
  = Ok (<[1%positive := {| width := 4;
                           rows := [[0; 0; 0; 0]; [0; 0; 0; 0]; [0; 0; 0; 1]] |}]>
          demo_store, 1%positive).
Proof.
  apply (overlay_image_clips_inside demo_store 1%positive 2%positive
           demo_background demo_foreground 3 2 eq_refl eq_refl
           demo_background_well_shaped demo_foreground_well_shaped);
    unfold demo_background, height; simpl; lia.
Defined.

(** C4, as stated, fails when an earlier tracker fails: CSRT, second
    in the tracker list, is then first among the boxes and its label
    goes to corner (0, 0), not (1, 0). *)
Lemma labels_ignore_tracker_position :
  omap TrackerCompare.label_drawn
    (trace_of (TrackerCompare.body demo_rectangle demo_putText TrackerCompare.trackers 2%positive demo_store
                 (tracker_pass first_fails 5)))
  = [("CSRT", (10, 20)); ("MIL", (40, 20))]
  ∧ ¬ TrackerCompare.labels_by_tracker_position TrackerCompare.trackers first_fails
        (trace_of (TrackerCompare.body demo_rectangle demo_putText TrackerCompare.trackers 2%positive
                     demo_store (tracker_pass first_fails 5))).
Proof.
  assert (Ht : omap TrackerCompare.label_drawn
                 (trace_of (TrackerCompare.body demo_rectangle demo_putText TrackerCompare.trackers 2%positive
                              demo_store (tracker_pass first_fails 5)))
               = [("CSRT", (10, 20)); ("MIL", (40, 20))]) by reflexivity.
  split; [exact Ht|]. intros H.
  specialize (H 1%nat _ eq_refl eq_refl). rewrite Ht in H.
  apply elem_of_cons in H as [H|H]; [discriminate H|].
  apply elem_of_cons in H as [H|H]; [discriminate H|].
  by apply elem_of_nil in H.
Qed.

Lemma labels_cycle_over_drawn_boxes_witness :
  ∃ t, omap TrackerCompare.label_drawn t = [("CSRT", (10, 20)); ("MIL", (40, 20))].
Proof.
  destruct (labels_cycle_over_drawn_boxes demo_rectangle demo_putText
              TrackerCompare.trackers 2%positive
              demo_store (tracker_pass first_fails 5) (demo_frame 5)
              demo_foreground eq_refl eq_refl)
    as (t & c & _ & Hlabels & _).
  exists t. rewrite Hlabels. reflexivity.
Defined.

Lemma failed_tracker_draws_no_box_witness :
  ∃ t, length (omap TrackerCompare.rectangle_drawn t) = 2%nat
       ∧ fst <$> omap TrackerCompare.label_drawn t = ["KCF"; "MIL"].
Proof.
  destruct (failed_tracker_draws_no_box demo_rectangle demo_putText
              TrackerCompare.trackers 2%positive
              demo_store (tracker_pass second_fails 5) (demo_frame 5)
              demo_foreground eq_refl eq_refl)
    as (t & c & _ & _ & _ & _ & _ & _ & H).
  exists t. apply H; reflexivity.
Defined.

Lemma read_failure_ends_both_loops_witness :
  (OpticalFlow.main S id (flow_prefix ++ failed_read :: flow_suffix)
   = (fst flow_prefix_run
        ++ [OpticalFlow.Print "End of video."; OpticalFlow.DestroyAllWindows;
            OpticalFlow.Print "Tracking ended."], Ok tt)
   ∧ length (omap OpticalFlow.shown (fst flow_prefix_run)) = length flow_prefix)
  ∧ (TrackerCompare.main demo_rectangle demo_putText (Some (demo_frame 0)) (1, 0, 2, 1)
       (tracker_prefix ++ tracker_failed_read :: tracker_suffix)
     = (fst tracker_start ++ fst tracker_prefix_run
          ++ [TrackerCompare.Print "End of video.";
              TrackerCompare.DestroyAllWindows;
              TrackerCompare.WriterRelease;
              TrackerCompare.Print "Tracking ended."], Ok tt)
     ∧ length (omap TrackerCompare.written (fst tracker_prefix_run))
       = length tracker_prefix).
Proof.
  apply (read_failure_ends_both_loops S id flow_prefix flow_suffix failed_read
           (fst flow_prefix_run) (snd flow_prefix_run)
           demo_rectangle demo_putText
           (demo_frame 0) (1, 0, 2, 1)
           (fst (snd tracker_start)) (snd tracker_prefix_run)
           (snd (snd tracker_start))
           tracker_prefix tracker_suffix tracker_failed_read
           (fst tracker_start) (fst tracker_prefix_run));
    vm_compute; reflexivity.
Defined.

(** C7, as stated, fails on the direction: with the detected point
    (3, 4) and its flow result (1, 2), the one arrow drawn starts at
    (1, 2) and ends at (3, 4). *)
Lemma arrow_runs_from_flow_result :
  omap OpticalFlow.arrow_drawn
    (trace_of (OpticalFlow.body S id [1; 2; 3; 4; 5]%nat (demo_pass 6)))
  = [((1, 2), (3, 4))]
  ∧ ¬ OpticalFlow.arrows_source_to_destination id [(3, 4)] [(1, 2)]
        (trace_of (OpticalFlow.body S id [1; 2; 3; 4; 5]%nat (demo_pass 6))).
Proof.
  assert (Ht : omap OpticalFlow.arrow_drawn
                 (trace_of (OpticalFlow.body S id [1; 2; 3; 4; 5]%nat (demo_pass 6)))
               = [((1, 2), (3, 4))]) by reflexivity.
  split; [exact Ht|]. intros H.
  specialize (H 0%nat (3, 4) (1, 2) eq_refl eq_refl). rewrite Ht in H.
  apply elem_of_cons in H as [H|H]; [discriminate H|].
  by apply elem_of_nil in H.
Qed.

Lemma flow_arrows_end_at_detected_points_witness :
  ∃ arrows : list (@OpticalFlow.event nat Z),
    arrows !! 0%nat = Some (OpticalFlow.ArrowedLine (1, 2) (3, 4) (0, 0, 0))
    ∧ arrows !! 1%nat = Some (OpticalFlow.Circle (1, 2) 10 (0, 0, 0)).
Proof.
  destruct (flow_arrows_end_at_detected_points S id [1; 2; 3; 4; 5]%nat
              [2; 3; 4; 5]%nat (demo_pass 6) 6%nat 1%nat [(3, 4)] [(1, 2)]
              eq_refl eq_refl eq_refl eq_refl eq_refl eq_refl)
    as (arrows & tail & c & _ & _ & H).
  exists arrows. exact (H 0%nat (3, 4) (1, 2) eq_refl eq_refl).
Defined.

Lemma null_corners_abort_pass_witness :
  OpticalFlow.body S id [] null_corners_pass
  = ([], Raise (TypeError "'NoneType' object is not iterable")).
Proof.
  destruct (null_corners_abort_pass S id [] null_corners_pass 1%nat
              eq_refl eq_refl) as (t & e & Hbody & _ & Hfirst).
  destruct (Hfirst ltac:(unfold OpticalFlow.frames_to_calc; simpl; lia))
    as [-> ->].
  exact Hbody.
Defined.

Lemma overlay_image_writes_in_place_witness :
  (∃ σ', overlay_image demo_store 1%positive 2%positive 0 0 = Ok (σ', 1%positive)
         ∧ σ' !! 1%positive
           = Some {| width := 4;
                     rows := [[1; 2; 0; 0]; [3; 4; 0; 0]; [0; 0; 0; 0]] |}
         ∧ dom σ' = dom demo_store)
  ∧ TrackerCompare.body demo_rectangle demo_putText TrackerCompare.trackers
      2%positive demo_store (tracker_pass inside_replies 5)
    = (fst paint_step, Ok (Next (snd paint_step)))
  ∧ ∃ frame output_frame,
      frame ≠ output_frame
      ∧ snd paint_step !! output_frame
        = Some {| width := 3; rows := [[1; 100; 200]; [3; 4; 5]] |}
      ∧ snd paint_step !! frame = Some (demo_frame 5)
      ∧ TrackerCompare.Imshow output_frame ∈ fst paint_step
      ∧ TrackerCompare.WriterWrite output_frame ∈ fst paint_step.
Proof.
  assert (Hbody : TrackerCompare.body demo_rectangle demo_putText
                    TrackerCompare.trackers 2%positive demo_store
                    (tracker_pass inside_replies 5)
                  = (fst paint_step, Ok (Next (snd paint_step))))
    by (vm_compute; reflexivity).
  destruct (overlay_image_writes_in_place demo_rectangle demo_putText
              demo_store _ (snd paint_step) 1%positive 2%positive _
              2%positive 0 0 TrackerCompare.trackers
              (tracker_pass inside_replies 5) (demo_frame 5) demo_foreground
              (fst paint_step) eq_refl eq_refl eq_refl Hbody)
    as [(_ & Hdom & _) (frame & output_frame & out & Hne & Hout & Hpaint
                        & Hframe & Hshow & Hwrite)].
  split.
  { eexists. split; [reflexivity|]. split; [reflexivity|]. exact Hdom. }
  split; [exact Hbody|].
  assert (Hout' : overlay_pixels (demo_frame 5) demo_foreground 0 0
                  = Ok {| width := 3; rows := [[1; 2; 5]; [3; 4; 5]] |})
    by reflexivity.
  rewrite Hout' in Hout. injection Hout as <-.
  exists frame, output_frame.
  split; [exact Hne|]. split; [exact Hpaint|]. split; [exact Hframe|].
  split; [exact Hshow | exact Hwrite].
Defined.

(** ** More of optical_flow_demo.py *)

Lemma compress_none {A} (mask : list bool) (xs : list A) :
  Forall (fun b => b = false) mask → compress mask xs = [].
Proof.
  intros Hall. revert xs.
  induction Hall as [|b mask -> _ IH]; intros [|x xs]; simpl; auto.
Qed.

Lemma status_mask_none (status : list Z) :
  Forall (fun s => s ≠ 1) status →
  Forall (fun b => b = false) (status_mask status).
Proof.
  induction 1 as [|s status Hs _ IH]; simpl; constructor;
    [by apply Z.eqb_neq | exact IH].
Qed.

Lemma land_255_low_byte (key : Z) : Z.land key 255 = key mod 256.
Proof. change 255 with (Z.ones 8). by rewrite Z.land_ones. Qed.

Section OpticalFlowMore.
Import OpticalFlow.
Context {frame gray coord : Type}.
Variable cvtColor : frame → gray.
Variable to_int : coord → Z.

#[local] Abbreviation iteration := (@iteration frame coord).
#[local] Abbreviation body := (body cvtColor to_int).
#[local] Abbreviation passes := (passes cvtColor to_int).
#[local] Abbreviation loop := (loop cvtColor to_int).
#[local] Abbreviation main := (main cvtColor to_int).
#[local] Abbreviation event := (@event gray coord).
#[local] Abbreviation at_pixel := (at_pixel to_int).
#[local] Abbreviation show_lines_from := (@show_lines_from gray coord to_int).
#[local] Abbreviation shown := (@shown gray coord).

(** One pass moves the window of kept frames by one. *)
Lemma body_Next_window (buf buf' : list gray) (it : iteration) t :
  body buf it = (t, Ok (Next buf')) → (length buf ≤ frames_to_calc)%nat →
  ∃ f, read it = Some f
       ∧ buf' = drop (length (buf ++ [cvtColor f]) - frames_to_calc)
                     (buf ++ [cvtColor f]).
Proof.
  intros Hbody Hlen.
  apply body_Next in Hbody as (f & prev & rest & Hread & Hpop & ->).
  exists f. split; [done|]. rewrite length_app. simpl.
  destruct (decide (length buf < frames_to_calc)%nat) as [Hlt|Hge].
  - rewrite pop_reference_short in Hpop by done. injection Hpop as _ <-.
    rewrite deque_append_room by done.
    by replace (length buf + 1 - frames_to_calc)%nat with 0%nat by lia.
  - destruct buf as [|g buf]; [unfold frames_to_calc in *; simpl in *; lia|].
    rewrite pop_reference_full in Hpop by (simpl in *; lia).
    injection Hpop as _ <-. simpl in *.
    rewrite deque_append_room by lia.
    unfold frames_to_calc in *.
    by replace (length buf + 1 - 4)%nat with 1%nat by lia.
Qed.

Lemma passes_window (stream : list iteration) (buf0 buf : list gray) t :
  passes buf0 stream = Some (t, buf) → (length buf0 ≤ frames_to_calc)%nat →
  ∃ frames,
    Forall2 (fun it f => read it = Some f) stream frames
    ∧ buf = drop (length (buf0 ++ map cvtColor frames) - frames_to_calc)
                 (buf0 ++ map cvtColor frames).
Proof.
  revert buf0 t. induction stream as [|it stream IH]; intros buf0 t; simpl.
  - intros [= _ <-] Hlen. exists []. split; [constructor|].
    simpl. rewrite app_nil_r.
    by replace (length buf0 - frames_to_calc)%nat with 0%nat by lia.
  - destruct (body buf0 it) as [t1 [[buf1|]|e]] eqn:Hbody; try discriminate.
    destruct (passes buf1 stream) as [[t2 final]|] eqn:Hrest; [|discriminate].
    intros [= _ <-] Hlen.
    destruct (body_Next_window _ _ _ _ Hbody Hlen) as (f & Hread & Hbuf1).
    destruct (IH buf1 t2 Hrest) as (frames & Hall & Hfinal).
    { subst buf1. rewrite length_drop. lia. }
    exists (f :: frames). split; [by constructor|].
    rewrite Hfinal, Hbuf1. simpl map.
    set (L := buf0 ++ [cvtColor f]). set (G := map cvtColor frames).
    replace (buf0 ++ cvtColor f :: G) with (L ++ G)
      by (unfold L; by rewrite <- app_assoc).
    rewrite <- (drop_app_le L G) by lia.
    rewrite drop_drop. f_equal.
    rewrite length_drop, !length_app. lia.
Qed.

(** What the loop does with a stream, given how its first passes went. *)
Lemma loop_after_passes (pre rest : list iteration) (buf0 buf : list gray) t :
  passes buf0 pre = Some (t, buf) →
  loop buf0 (pre ++ rest) = (t ++ fst (loop buf rest), snd (loop buf rest)).
Proof.
  revert buf0 t. induction pre as [|p pre IH]; intros buf0 t; simpl.
  - intros [= <- <-]. by destruct (loop buf0 rest).
  - destruct (body buf0 p) as [t1 [[buf1|]|e]] eqn:Hbody; try discriminate.
    destruct (passes buf1 pre) as [[t2 final]|] eqn:Hrest; [|discriminate].
    intros [= <- <-]. rewrite bind_unfold, bind_Ok. cbn [fst snd].
    rewrite (IH _ _ Hrest). cbn [fst snd]. by rewrite <- app_assoc.
Qed.

(** A pass that reads a frame and ends without an exception showed
    that frame once; with ESC pressed it ends the loop. *)
Lemma body_Ok_shown (buf : list gray) (it : iteration) f t c :
  read it = Some f → body buf it = (t, Ok c) →
  omap shown t = [tt] ∧ (esc_pressed (wait_key it) = true → c = Break).
Proof.
  intros Hread. unfold OpticalFlow.body. rewrite Hread.
  rewrite !bind_unfold. intros H.
  apply bind_Ok_inv in H as (t1 & [prev rest] & t2 & Hpop & H & ->).
  unfold lift in Hpop. injection Hpop as <- _.
  apply bind_Ok_inv in H as (t3 & p & t4 & Hflow & H & ->).
  apply bind_Ok_inv in H as (t5 & [] & t6 & Hgood & H & ->).
  apply bind_Ok_inv in H as (t7 & [] & t8 & Hemit & H & ->).
  injection Hemit as <-.
  pose proof (flow_block_not_shown to_int it (cvtColor f) prev (corners it)) as Hns.
  unfold trace_of in Hns. rewrite Hflow in Hns. simpl in Hns.
  apply show_good_features_not_shown in Hgood.
  rewrite !omap_app, Hns, Hgood. simpl.
  destruct (esc_pressed (wait_key it)).
  - injection H as <- <-. done.
  - injection H as <- _. done.
Qed.

(** X1. After any number of passes the buffer holds the grayscales of
    the last five frames read (of all of them while fewer were read), in
    reading order; so from the sixth frame on the reference popped for
    a pass is the frame read five passes earlier. *)
Theorem flow_reference_lags_five_frames (stream : list iteration) t buf :
  passes [] stream = Some (t, buf) →
  ∃ frames,
    Forall2 (fun it f => read it = Some f) stream frames
    ∧ buf = map cvtColor (drop (length frames - frames_to_calc) frames)
    ∧ ((frames_to_calc ≤ length frames)%nat →
       ∃ f rest,
         frames !! (length frames - frames_to_calc)%nat = Some f
         ∧ pop_reference buf = Ok (Some (cvtColor f), rest)).
Proof.
  intros Hrun.
  destruct (passes_window _ _ _ _ Hrun) as (frames & Hall & Hbuf);
    [simpl; lia|].
  simpl in Hbuf. rewrite length_map, List.skipn_map in Hbuf.
  exists frames. split; [done|]. split; [done|].
  intros Hfull.
  destruct (lookup_lt_is_Some_2 frames (length frames - frames_to_calc))
    as [f Hf]; [unfold frames_to_calc in *; lia|].
  exists f, (map cvtColor (drop (S (length frames - frames_to_calc)) frames)).
  split; [done|]. rewrite Hbuf, (drop_S _ _ _ Hf). simpl map.
  apply pop_reference_full. rewrite length_map, length_drop. lia.
Qed.

(** X2. While the buffer holds fewer than five frames a pass makes no
    flow call: it draws a disc on every detected corner, shows the
    frame and appends its grayscale, dropping nothing. *)
Theorem filling_pass_draws_all_corners (buf : list gray) (it : iteration) f cs :
  read it = Some f → corners it = Some cs → (length buf < frames_to_calc)%nat →
  body buf it
  = (map (fun corner => Circle (at_pixel corner) 5 (0, 0, 255)) cs
       ++ Imshow :: (if esc_pressed (wait_key it) then [] else [Sleep]),
     Ok (if esc_pressed (wait_key it) then Break
         else Next (buf ++ [cvtColor f]))).
Proof.
  intros Hread Hcorners Hshort. unfold OpticalFlow.body.
  rewrite Hread, Hcorners, pop_reference_short by done.
  rewrite lift_Ok_bind. cbv beta iota.
  rewrite deque_append_room by done. simpl.
  by destruct (esc_pressed (wait_key it)).
Qed.

(** X3. When the flow call hands back no points ([p_dst] is None) no
    arrow is drawn and every detected corner still gets its disc. *)
Theorem lost_flow_keeps_all_corners (buf rest : list gray) (it : iteration)
    f g cs :
  read it = Some f → pop_reference buf = Ok (Some g, rest) →
  corners it = Some cs → flow_points it = None →
  body buf it
  = (CalcOpticalFlowPyrLK (cvtColor f) g (Some cs)
       :: map (fun corner => Circle (at_pixel corner) 5 (0, 0, 255)) cs
       ++ Imshow :: (if esc_pressed (wait_key it) then [] else [Sleep]),
     Ok (if esc_pressed (wait_key it) then Break
         else Next (deque_append frames_to_calc rest (cvtColor f)))).
Proof.
  intros Hread Hpop Hcorners Hflow. unfold OpticalFlow.body.
  rewrite Hread, Hpop, lift_Ok_bind. cbv beta iota.
  unfold OpticalFlow.flow_block. rewrite Hflow, Hcorners.
  unfold OpticalFlow.show_good_features.
  by destruct (esc_pressed (wait_key it)).
Qed.

(** X4. When the flow call answers but no point has status 1, the
    pass draws nothing at all: no arrow, and no disc either, because
    the detected corners were filtered by the same mask. *)
Theorem untracked_points_draw_nothing (buf rest : list gray) (it : iteration)
    f g p_src p_dst :
  read it = Some f → pop_reference buf = Ok (Some g, rest) →
  corners it = Some p_src → flow_points it = Some p_dst →
  length p_src = length (flow_status it) →
  length p_dst = length (flow_status it) →
  Forall (fun s => s ≠ 1) (flow_status it) →
  body buf it
  = (CalcOpticalFlowPyrLK (cvtColor f) g (Some p_src)
       :: Imshow :: (if esc_pressed (wait_key it) then [] else [Sleep]),
     Ok (if esc_pressed (wait_key it) then Break
         else Next (deque_append frames_to_calc rest (cvtColor f)))).
Proof.
  intros Hread Hpop Hcorners Hflow Hls Hld Hnone.
  rewrite (body_flow cvtColor to_int buf rest it f g p_src p_dst) by done.
  rewrite !compress_none by by apply status_mask_none. reflexivity.
Qed.

(** X5. ESC on a pass that went through: the frame of that pass was
    shown, the loop ends there, "End of video." is not printed, the
    rest of the stream is not read, and the script still closes the
    windows and prints "Tracking ended.". *)
Theorem esc_ends_flow_loop (pre rest : list iteration) (it : iteration)
    (buf : list gray) t t1 c f :
  passes [] pre = Some (t, buf) → read it = Some f →
  esc_pressed (wait_key it) = true → body buf it = (t1, Ok c) →
  c = Break ∧ omap shown t1 = [tt]
  ∧ main (pre ++ it :: rest)
    = (t ++ t1 ++ [DestroyAllWindows; Print "Tracking ended."], Ok tt).
Proof.
  intros Hpre Hread Hesc Hbody.
  destruct (body_Ok_shown _ _ _ _ _ Hread Hbody) as [Hshown Hbreak].
  specialize (Hbreak Hesc). subst c. split; [done|]. split; [done|].
  unfold OpticalFlow.main. rewrite (loop_after_passes _ _ _ _ _ Hpre).
  cbn [OpticalFlow.loop]. rewrite Hbody. simpl.
  by rewrite !app_nil_r, <- !app_assoc.
Qed.

(** X6. An exception in a pass leaves the script as it is: nothing
    after the loop runs, so the windows are not closed and
    "Tracking ended." is not printed. *)
Theorem raising_pass_skips_cleanup (pre rest : list iteration) (it : iteration)
    (buf : list gray) t t1 e :
  passes [] pre = Some (t, buf) → body buf it = (t1, Raise e) →
  main (pre ++ it :: rest) = (t ++ t1, Raise e).
Proof.
  intros Hpre Hbody. unfold OpticalFlow.main.
  rewrite (loop_after_passes _ _ _ _ _ Hpre).
  cbn [OpticalFlow.loop]. rewrite Hbody. reflexivity.
Qed.

(** X8. The arrow colours come from 100 table rows used in turn: the
    pair at position i + 100 is drawn in the colour of the pair at
    position i. *)
Theorem arrow_colours_repeat_after_100 (pal : nat → color)
    (source destination : list point) (i : nat) (s d s' d' : point) :
  source !! i = Some s → destination !! i = Some d →
  source !! (i + 100)%nat = Some s' → destination !! (i + 100)%nat = Some d' →
  ∃ col,
    show_lines_from pal 0 source destination !! (2 * i)%nat
    = Some (ArrowedLine (at_pixel d) (at_pixel s) col)
    ∧ show_lines_from pal 0 source destination !! (2 * (i + 100))%nat
      = Some (ArrowedLine (at_pixel d') (at_pixel s') col).
Proof.
  intros Hs Hd Hs' Hd'. exists (pal (i mod 100)%nat).
  destruct (show_lines_from_lookup (gray:=gray) to_int pal 0 i source destination s d Hs Hd)
    as [H1 _].
  destruct (show_lines_from_lookup (gray:=gray) to_int pal 0 (i + 100) source destination
              s' d' Hs' Hd') as [H2 _].
  assert (Hmod : ((i + 100) mod 100 = i mod 100)%nat)
    by exact (Nat.Div0.mod_add i 1 100).
  cbn [Nat.add] in H1, H2. rewrite Hmod in H2. by split.
Qed.

(** X9. In the loop the deque never has to evict: the reference is
    popped exactly when the buffer is full, so the append that follows
    always finds room and keeps every remaining frame. *)
Theorem append_after_pop_keeps_all (buf rest : list gray) prev (g : gray) :
  (length buf ≤ frames_to_calc)%nat → pop_reference buf = Ok (prev, rest) →
  deque_append frames_to_calc rest g = rest ++ [g]
  ∧ (prev = None ↔ (length buf < frames_to_calc)%nat).
Proof.
  intros Hlen Hpop.
  destruct (decide (length buf < frames_to_calc)%nat) as [Hlt|Hge].
  - rewrite pop_reference_short in Hpop by done. injection Hpop as <- <-.
    split; [by apply deque_append_room | done].
  - destruct buf as [|g0 buf]; [unfold frames_to_calc in *; simpl in *; lia|].
    rewrite pop_reference_full in Hpop by (simpl in *; lia).
    injection Hpop as <- <-. split.
    + apply deque_append_room. simpl in *. lia.
    + split; [discriminate | done].
Qed.

End OpticalFlowMore.

(** X10. The ESC test looks at the low byte of the key code only: a
    code quits exactly when it is 27 modulo 256, so 27 with higher bits
    set quits too and -1 (no key) does not. *)
Theorem esc_pressed_low_byte (key : Z) :
  esc_pressed key = true ↔ key mod 256 = 27.
Proof.
  unfold esc_pressed. rewrite land_255_low_byte. apply Z.eqb_eq.
Qed.


(** ** More of tracker_compare.py: slices and the overlay *)

Lemma slice_range_bounds (n : nat) (start stop : Z) :
  (fst (slice_range n start stop) + snd (slice_range n start stop) ≤ n)%nat.
Proof.
  unfold slice_range, adjust_index. simpl.
  destruct (Z.ltb_spec start 0), (Z.ltb_spec stop 0); lia.
Qed.

Section ArrayMore.
Context {pixel : Type}.
Implicit Types a v bg fg : ndarray pixel.

Lemma pixel_at_clipped_paste bg fg (x y : Z) (r c : nat) :
  pixel_at (clipped_paste bg fg x y) r c
  = (fun p => default p (pixel_atZ fg (Z.of_nat r - y) (Z.of_nat c - x)))
      <$> pixel_at bg r c.
Proof.
  unfold pixel_at, clipped_paste. simpl. rewrite list_lookup_imap.
  destruct (rows bg !! r) as [row|]; simpl; [|done].
  by rewrite list_lookup_imap.
Qed.

Lemma pixel_at_is_Some a (r c : nat) :
  well_shaped a → (r < height a)%nat → (c < width a)%nat →
  is_Some (pixel_at a r c).
Proof.
  intros Hwf Hr Hc. unfold pixel_at.
  destruct (lookup_lt_is_Some_2 (rows a) r Hr) as [row Hrow].
  rewrite Hrow. simpl. apply lookup_lt_is_Some_2.
  by rewrite (proj1 (Forall_lookup _ _) Hwf r row Hrow).
Qed.

(** A slice is never larger than the array it is cut from. *)
Lemma getslice_fits a (r0 r1 c0 c1 : Z) :
  (height (getslice a r0 r1 c0 c1) ≤ height a)%nat
  ∧ (width (getslice a r0 r1 c0 c1) ≤ width a)%nat
  ∧ (well_shaped a → well_shaped (getslice a r0 r1 c0 c1)).
Proof.
  unfold getslice.
  pose proof (slice_range_bounds (height a) r0 r1) as Hr.
  pose proof (slice_range_bounds (width a) c0 c1) as Hc.
  destruct (slice_range (height a) r0 r1) as [rlo rn].
  destruct (slice_range (width a) c0 c1) as [clo cn].
  unfold height, well_shaped in *. simpl in *.
  rewrite length_fmap, length_take, length_drop.
  split; [lia|]. split; [lia|].
  rewrite !Forall_lookup. intros Hwf i row.
  rewrite list_lookup_fmap. intros Hrow.
  apply fmap_Some in Hrow as (row0 & Hrow0 & ->).
  apply lookup_take_Some in Hrow0 as [Hrow0 _].
  rewrite lookup_drop in Hrow0.
  rewrite length_take, length_drop, (Hwf _ _ Hrow0). lia.
Qed.

(** A slice that lies inside the array: its shape, and where its
    pixels come from. *)
Lemma getslice_inside a (r0 n c0 m : Z) :
  0 ≤ r0 → 0 ≤ n → r0 + n ≤ Z.of_nat (height a) →
  0 ≤ c0 → 0 ≤ m → c0 + m ≤ Z.of_nat (width a) →
  height (getslice a r0 (r0 + n) c0 (c0 + m)) = Z.to_nat n
  ∧ width (getslice a r0 (r0 + n) c0 (c0 + m)) = Z.to_nat m
  ∧ ∀ r c : nat,
      (r < Z.to_nat n)%nat → (c < Z.to_nat m)%nat →
      pixel_at (getslice a r0 (r0 + n) c0 (c0 + m)) r c
      = pixel_at a (Z.to_nat r0 + r) (Z.to_nat c0 + c).
Proof.
  intros Hr0 Hn Hrn Hc0 Hm Hcm. unfold getslice.
  rewrite (slice_range_inside (height a) r0 n) by done.
  rewrite (slice_range_inside (width a) c0 m) by done.
  unfold height in *. simpl. split; [|split; [done|]].
  - rewrite length_fmap, length_take, length_drop. lia.
  - intros r c Hr Hc. unfold pixel_at. simpl.
    rewrite list_lookup_fmap, lookup_take_lt, lookup_drop by done.
    destruct (rows a !! (Z.to_nat r0 + r)%nat) as [row|]; simpl; [|done].
    by rewrite lookup_take_lt, lookup_drop.
Qed.

Lemma clipped_paste_empty bg fg (x y : Z) :
  well_shaped fg → height fg = 0%nat ∨ width fg = 0%nat →
  clipped_paste bg fg x y = bg.
Proof.
  intros Hfg Hempty.
  assert (Hnone : ∀ r c, pixel_atZ fg r c = None).
  { intros r c. unfold pixel_atZ. destruct (_ && _); [|done].
    destruct Hempty as [Hh|Hw].
    - apply pixel_at_None_row. lia.
    - apply pixel_at_None_col; [done|lia]. }
  destruct bg as [w rs]. unfold clipped_paste. simpl. f_equal.
  rewrite <- (imap_keep rs) at 2. apply imap_ext. intros r row _.
  rewrite <- (imap_keep row) at 2. apply imap_ext. intros c p _.
  by rewrite Hnone.
Qed.

Lemma clipped_paste_twice bg fg (x y : Z) :
  clipped_paste (clipped_paste bg fg x y) fg x y = clipped_paste bg fg x y.
Proof.
  unfold clipped_paste. simpl. f_equal. rewrite imap_compose.
  apply imap_ext. intros r row _. rewrite imap_compose.
  apply imap_ext. intros c p _.
  by destruct (pixel_atZ fg (Z.of_nat r - y) (Z.of_nat c - x)).
Qed.

(** X11. Pasted at (0, 0), as the loop does, overlay_image cannot
    fail, whatever the shapes of the two arrays: it hands back its
    first argument, whose array keeps its shape. *)
Theorem overlay_at_origin_never_fails (σ : gmap loc (ndarray pixel))
    (background foreground : loc) bg fg :
  σ !! background = Some bg → σ !! foreground = Some fg →
  ∃ out,
    overlay_image σ background foreground 0 0
    = Ok (<[background := out]> σ, background)
    ∧ height out = height bg ∧ width out = width bg.
Proof.
  intros Hbg Hfg.
  destruct (overlay_pixels_inside bg fg 0 0) as [out Hout]; [lia|lia|].
  exists out. unfold overlay_image. rewrite Hbg, Hfg, Hout.
  split; [done|].
  destruct (overlay_pixels_shape _ _ _ _ _ Hout) as (Hh & Hw & _). done.
Qed.

(** X12. A foreground with no rows or no columns (the snapshot of an
    empty ROI) changes nothing: the store after the call is the store
    before it. *)
Theorem overlay_empty_foreground_is_noop (σ : gmap loc (ndarray pixel))
    (background foreground : loc) bg fg (x y : Z) :
  σ !! background = Some bg → σ !! foreground = Some fg →
  well_shaped bg → well_shaped fg →
  height fg = 0%nat ∨ width fg = 0%nat →
  0 ≤ x ≤ Z.of_nat (width bg) → 0 ≤ y ≤ Z.of_nat (height bg) →
  overlay_image σ background foreground x y = Ok (σ, background).
Proof.
  intros Hbg Hfg Hwbg Hwfg Hempty Hx Hy. unfold overlay_image.
  rewrite Hbg, Hfg, overlay_pixels_clipped by done.
  rewrite clipped_paste_empty by done. by rewrite insert_id.
Qed.

(** X13. Pasting the same foreground at the same place a second time
    changes nothing more. *)
Theorem overlay_twice_is_once bg fg (x y : Z) out :
  well_shaped bg → well_shaped fg →
  0 ≤ x ≤ Z.of_nat (width bg) → 0 ≤ y ≤ Z.of_nat (height bg) →
  overlay_pixels bg fg x y = Ok out →
  overlay_pixels out fg x y = Ok out.
Proof.
  intros Hwbg Hwfg Hx Hy. rewrite overlay_pixels_clipped by done.
  intros [= <-].
  destruct (clipped_paste_shape bg fg x y) as (Hh & Hw & Hwf).
  rewrite overlay_pixels_clipped by (rewrite ?Hh, ?Hw; auto).
  by rewrite clipped_paste_twice.
Qed.

(** X14. A foreground at least as large as the background, pasted at
    (0, 0), replaces every pixel: the background becomes the top-left
    part of the foreground. *)
Theorem overlay_covering_foreground bg fg :
  well_shaped bg → well_shaped fg →
  (height bg ≤ height fg)%nat → (width bg ≤ width fg)%nat →
  ∃ out,
    overlay_pixels bg fg 0 0 = Ok out
    ∧ ∀ r c : nat,
        (r < height bg)%nat → (c < width bg)%nat →
        pixel_at out r c = pixel_at fg r c ∧ is_Some (pixel_at out r c).
Proof.
  intros Hwbg Hwfg Hh Hw. exists (clipped_paste bg fg 0 0).
  split; [apply overlay_pixels_clipped; (done || lia)|].
  intros r c Hr Hc. rewrite pixel_at_clipped_paste.
  destruct (pixel_at_is_Some bg r c Hwbg Hr Hc) as [p ->].
  destruct (pixel_at_is_Some fg r c Hwfg) as [q Hq]; [lia|lia|].
  unfold pixel_atZ.
  destruct (Z.leb_spec 0 (Z.of_nat r - 0)); [|lia].
  destruct (Z.leb_spec 0 (Z.of_nat c - 0)); [|lia]. simpl.
  rewrite !Z.sub_0_r, !Nat2Z.id, Hq. simpl. eauto.
Qed.

(** X15. What the loop shows in the top-left corner: with the ROI
    inside the first frame and no larger than the current frame, pixel
    (r, c) of the composite is pixel (ry + r, rx + c) of the first
    frame when r < rh and c < rw, and the current frame's own pixel
    everywhere else. *)
Theorem roi_snapshot_fills_top_left (first pixels : ndarray pixel)
    (rx ry rw rh : Z) :
  well_shaped first → well_shaped pixels →
  0 ≤ rx → 0 ≤ rw → rx + rw ≤ Z.of_nat (width first) →
  0 ≤ ry → 0 ≤ rh → ry + rh ≤ Z.of_nat (height first) →
  rw ≤ Z.of_nat (width pixels) → rh ≤ Z.of_nat (height pixels) →
  ∃ out,
    overlay_pixels pixels (getslice first ry (ry + rh) rx (rx + rw)) 0 0 = Ok out
    ∧ ∀ r c : nat,
        (r < height pixels)%nat → (c < width pixels)%nat →
        pixel_at out r c
        = if (Z.of_nat r <? rh) && (Z.of_nat c <? rw)
          then pixel_at first (Z.to_nat ry + r) (Z.to_nat rx + c)
          else pixel_at pixels r c.
Proof.
  intros Hwf Hwp Hrx Hrw Hrxw Hry Hrh Hryh Hwfit Hhfit.
  set (roi_image := getslice first ry (ry + rh) rx (rx + rw)).
  destruct (getslice_inside first ry rh rx rw) as (Hh & Hw & Hpix); try done.
  destruct (getslice_fits first ry (ry + rh) rx (rx + rw)) as (_ & _ & Hwroi).
  specialize (Hwroi Hwf). fold roi_image in Hh, Hw, Hpix, Hwroi.
  exists (clipped_paste pixels roi_image 0 0).
  split; [apply overlay_pixels_clipped; (done || lia)|].
  intros r c Hr Hc. rewrite pixel_at_clipped_paste.
  destruct (pixel_at_is_Some pixels r c Hwp Hr Hc) as [p Hp]. rewrite Hp.
  unfold pixel_atZ.
  destruct (Z.leb_spec 0 (Z.of_nat r - 0)); [|lia].
  destruct (Z.leb_spec 0 (Z.of_nat c - 0)); [|lia]. cbn [andb fmap option_fmap option_map].
  rewrite !Z.sub_0_r, !Nat2Z.id.
  destruct (Z.ltb_spec (Z.of_nat r) rh) as [Hrlt|Hrge];
    [destruct (Z.ltb_spec (Z.of_nat c) rw) as [Hclt|Hcge]|]; cbn [andb].
  - rewrite Hpix by lia.
    destruct (pixel_at_is_Some first (Z.to_nat ry + r) (Z.to_nat rx + c) Hwf)
      as [q Hq]; [lia|lia|]. by rewrite Hq.
  - rewrite pixel_at_None_col; [done|done|lia].
  - rewrite pixel_at_None_row; [done|lia].
Qed.

(** X16. Whatever rectangle the selection returns (negative,
    oversized or empty included), the snapshot cut from the frame is a
    well-shaped array no taller and no wider than the frame. *)
Theorem roi_crop_fits_frame (first : ndarray pixel) (rx ry rw rh : Z) :
  well_shaped first →
  well_shaped (getslice first ry (ry + rh) rx (rx + rw))
  ∧ (height (getslice first ry (ry + rh) rx (rx + rw)) ≤ height first)%nat
  ∧ (width (getslice first ry (ry + rh) rx (rx + rw)) ≤ width first)%nat.
Proof.
  intros Hwf.
  destruct (getslice_fits first ry (ry + rh) rx (rx + rw)) as (Hh & Hw & Hs).
  auto.
Qed.

End ArrayMore.

(** ** More of tracker_compare.py: drawing and the loop *)

(** X17. draw_rect never fails, for any integer index, negative ones
    included; it draws the box from (x, y) to (x + w, y + h) and anchors
    the label on one of the four corners of that box, the same one for
    index and index + 4; both are drawn into the array it was given
    and into no other. *)
Theorem draw_rect_label_on_box_corner {pixel : Type}
    (rectangle : ndarray pixel → Z * Z → Z * Z → TrackerCompare.color
                 → ndarray pixel)
    (putText : ndarray pixel → string → Z * Z → TrackerCompare.color
               → ndarray pixel)
    (σ : gmap loc (ndarray pixel)) (frame_2_draw : loc) (x y w h : Z)
    (col : TrackerCompare.color) (text : string) (index : Z) :
  ∃ org,
    TrackerCompare.draw_rect rectangle putText σ frame_2_draw (x, y, w, h)
      col text index
    = ([ TrackerCompare.Rectangle frame_2_draw (x, y) (x + w, y + h) col;
         TrackerCompare.PutText frame_2_draw text org col ],
       Ok (alter (fun img => putText img text org col) frame_2_draw
             (alter (fun img => rectangle img (x, y) (x + w, y + h) col)
                    frame_2_draw σ)))
    ∧ org ∈ [(x, y); (x + w, y); (x, y + h); (x + w, y + h)]
    ∧ TrackerCompare.label_org (x, y, w, h) (index + 4) = org.
Proof.
  exists (TrackerCompare.label_org (x, y, w, h) index).
  split; [apply draw_rect_events|].
  assert (Hmod : (index + 4) mod 4 = index mod 4).
  { replace (index + 4) with (index + 1 * 4) by lia. apply Z.mod_add. lia. }
  unfold TrackerCompare.label_org, TrackerCompare.corner_offset.
  rewrite Hmod.
  destruct (mod4_cases index) as [H|[H|[H|H]]]; rewrite H; simpl;
    (split; [|done]).
  - replace (x + 0 * w, y + 0 * h) with (x, y) by (f_equal; lia).
    apply list_elem_of_here.
  - replace (x + 1 * w, y + 0 * h) with (x + w, y) by (f_equal; lia).
    apply list_elem_of_further, list_elem_of_here.
  - replace (x + 0 * w, y + 1 * h) with (x, y + h) by (f_equal; lia).
    do 2 apply list_elem_of_further. apply list_elem_of_here.
  - replace (x + 1 * w, y + 1 * h) with (x + w, y + h) by (f_equal; lia).
    do 3 apply list_elem_of_further. apply list_elem_of_here.
Qed.

Section TrackerCompareMore.
Import TrackerCompare.
Context {pixel : Type}.
Variable rectangle : ndarray pixel → Z * Z → Z * Z → color → ndarray pixel.
Variable putText : ndarray pixel → string → Z * Z → color → ndarray pixel.
Implicit Types σ : gmap loc (ndarray pixel).

#[local] Abbreviation paint_boxes := (paint_boxes rectangle putText).
#[local] Abbreviation body := (body rectangle putText).
#[local] Abbreviation loop := (loop rectangle putText).
#[local] Abbreviation main := (main rectangle putText).
#[local] Abbreviation passes := (passes rectangle putText).

Lemma boxes_target (output_frame : loc) (bboxes : list box) :
  Forall (fun l => l = output_frame)
    (omap output_target (concat (imap (box_events output_frame) bboxes))).
Proof.
  assert (Hread : omap output_target
                    (concat (imap (box_events output_frame) bboxes))
                  = concat (imap (fun _ _ => [output_frame; output_frame]) bboxes)).
  { exact (box_events_read output_target
             (fun _ _ => [output_frame; output_frame]) output_frame
             ltac:(by intros k [text [[[x y] w] h] col]) 0 bboxes). }
  rewrite Hread. clear Hread.
  induction bboxes as [|b bboxes IH]; [constructor|].
  rewrite imap_cons. simpl. do 2 (constructor; [done|]). exact IH.
Qed.

(** A pass that goes on leaves every array that was there untouched
    and adds two. *)
Lemma body_Next_store (ts : list tracker) (roi_image : loc) σ σ'
    (it : @pass pixel) (roi_pixels : ndarray pixel) t :
  σ !! roi_image = Some roi_pixels →
  body ts roi_image σ it = (t, Ok (Next σ')) →
  (∀ l, is_Some (σ !! l) → σ' !! l = σ !! l)
  ∧ size σ' = (size σ + 2)%nat.
Proof.
  intros Hroi Hbody.
  destruct (read it) as [pixels|] eqn:Hread;
    [|unfold TrackerCompare.body in Hbody; rewrite Hread in Hbody; discriminate].
  destruct (body_frame rectangle putText ts roi_image σ it pixels roi_pixels Hread Hroi)
    as (out & _ & Hfo & _ & _ & Hbody').
  rewrite Hbody' in Hbody.
  pose proof (f_equal snd Hbody) as Hs. cbn [snd] in Hs.
  destruct (esc_pressed (wait_key it)); [discriminate|].
  injection Hs as <-.
  set (frame := fresh (dom σ)) in *.
  set (σ1 := <[frame := pixels]> σ) in *.
  set (output_frame := fresh (dom σ1)) in *.
  assert (Hf : σ !! frame = None)
    by (apply not_elem_of_dom; apply is_fresh).
  assert (Ho : σ1 !! output_frame = None)
    by (apply not_elem_of_dom; apply is_fresh).
  split.
  - intros l [a Ha].
    assert (l ≠ frame) by (intros ->; congruence).
    assert (Hl1 : σ1 !! l = Some a) by (unfold σ1; by rewrite lookup_insert_ne).
    assert (l ≠ output_frame) by (intros ->; congruence).
    rewrite !lookup_insert_ne by done. by rewrite Hl1, Ha.
  - rewrite insert_insert_eq, map_size_insert_None by done.
    unfold σ1. rewrite map_size_insert_None by done. lia.
Qed.

Lemma tracker_loop_after_passes (ts : list tracker) (roi_image : loc) σ σ'
    (pre rest : list (@pass pixel)) t :
  passes ts roi_image σ pre = Some (t, σ') →
  loop ts roi_image σ (pre ++ rest)
  = (t ++ fst (loop ts roi_image σ' rest), snd (loop ts roi_image σ' rest)).
Proof.
  revert σ t. induction pre as [|p pre IH]; intros σ t; simpl.
  - intros [= <- <-]. by destruct (loop ts roi_image σ rest).
  - destruct (body ts roi_image σ p) as [t1 [[σ1|]|e]] eqn:Hbody;
      try discriminate.
    destruct (passes ts roi_image σ1 pre) as [[t2 final]|] eqn:Hrest;
      [|discriminate].
    intros [= <- <-]. rewrite bind_unfold, bind_Ok. cbn [fst snd].
    rewrite (IH _ _ Hrest). cbn [fst snd]. by rewrite <- app_assoc.
Qed.

Lemma passes_keep_roi (ts : list tracker) (roi_image : loc) σ σ'
    (stream : list (@pass pixel)) (roi_pixels : ndarray pixel) t :
  σ !! roi_image = Some roi_pixels →
  passes ts roi_image σ stream = Some (t, σ') →
  σ' !! roi_image = Some roi_pixels.
Proof.
  revert σ t. induction stream as [|it stream IH]; intros σ t Hroi; simpl.
  - by intros [= _ <-].
  - destruct (body ts roi_image σ it) as [t1 [[σ1|]|e]] eqn:Hbody;
      try discriminate.
    destruct (passes ts roi_image σ1 stream) as [[t2 final]|] eqn:Hrest;
      [|discriminate].
    intros [= _ <-].
    destruct (body_Next_frame _ _ _ _ _ _ _ _ _ Hroi Hbody) as [Hroi1 _].
    exact (IH _ _ Hroi1 Hrest).
Qed.

Lemma tracker_loop_Ok (ts : list tracker) (roi_image : loc) σ
    (stream : list (@pass pixel)) (roi_pixels : ndarray pixel) :
  σ !! roi_image = Some roi_pixels →
  ∃ t, loop ts roi_image σ stream = (t, Ok tt).
Proof.
  revert σ. induction stream as [|it stream IH]; intros σ Hroi.
  - simpl. eauto.
  - cbn [loop]. destruct (read it) as [pixels|] eqn:Hread.
    + destruct (body_frame rectangle putText ts roi_image σ it pixels roi_pixels Hread Hroi)
        as (out & _ & _ & Hfr & Hor & Hbody).
      rewrite Hbody, bind_unfold, bind_Ok. cbn [fst snd].
      destruct (esc_pressed (wait_key it)); [simpl; eauto|].
      destruct (IH (<[fresh (dom (<[fresh (dom σ) := pixels]> σ)) :=
                        paint_boxes out 0 (survivors 0 ts (update it))]>
                      (<[fresh (dom (<[fresh (dom σ) := pixels]> σ)) := pixels]>
                         (<[fresh (dom σ) := pixels]> σ)))) as [t Ht].
      { by rewrite !lookup_insert_ne. }
      rewrite Ht. simpl. eauto.
    + unfold TrackerCompare.body. rewrite Hread. simpl. eauto.
Qed.

(** X18. The loop never changes an array it was given: after any
    number of passes the ROI snapshot, the first frame and every frame
    read earlier are as they were, and each pass has added exactly two
    arrays, the frame read and its annotated copy. *)
Theorem tracker_passes_keep_store (ts : list tracker) (roi_image : loc) σ σ'
    (stream : list (@pass pixel)) (roi_pixels : ndarray pixel) t :
  σ !! roi_image = Some roi_pixels →
  passes ts roi_image σ stream = Some (t, σ') →
  (∀ l, is_Some (σ !! l) → σ' !! l = σ !! l)
  ∧ size σ' = (size σ + 2 * length stream)%nat.
Proof.
  revert σ t. induction stream as [|it stream IH]; intros σ t Hroi; simpl.
  - intros [= _ <-]. split; [done|lia].
  - destruct (body ts roi_image σ it) as [t1 [[σ1|]|e]] eqn:Hbody;
      try discriminate.
    destruct (passes ts roi_image σ1 stream) as [[t2 final]|] eqn:Hrest;
      [|discriminate].
    intros [= _ <-].
    destruct (body_Next_store _ _ _ _ _ _ _ Hroi Hbody) as [Hkeep1 Hsize1].
    destruct (body_Next_frame _ _ _ _ _ _ _ _ _ Hroi Hbody) as [Hroi1 _].
    destruct (IH _ _ Hroi1 Hrest) as [Hkeep Hsize].
    split; [|lia].
    intros l Hl. rewrite Hkeep by (rewrite Hkeep1; done). by apply Hkeep1.
Qed.

(** X19. The trackers are updated with the frame as it was read, not
    with the annotated copy: every update of a pass names one array,
    every rectangle, label, display and write names another, and the
    first still holds the frame as read when the pass is over. *)
Theorem trackers_see_unannotated_frame (ts : list tracker) (roi_image : loc)
    σ σ' (it : @pass pixel) (pixels roi_pixels : ndarray pixel) t :
  read it = Some pixels → σ !! roi_image = Some roi_pixels →
  body ts roi_image σ it = (t, Ok (Next σ')) →
  ∃ frame output_frame,
    frame ≠ output_frame
    ∧ omap update_target t = replicate (length ts) frame
    ∧ Forall (fun l => l = output_frame) (omap output_target t)
    ∧ σ' !! frame = Some pixels.
Proof.
  intros Hread Hroi Hbody.
  destruct (body_frame rectangle putText ts roi_image σ it pixels roi_pixels Hread Hroi)
    as (out & _ & Hfo & _ & _ & Hbody').
  rewrite Hbody' in Hbody.
  pose proof (f_equal fst Hbody) as Ht. cbn [fst] in Ht.
  pose proof (f_equal snd Hbody) as Hs. cbn [snd] in Hs.
  destruct (esc_pressed (wait_key it)); [discriminate|].
  injection Hs as <-.
  set (frame := fresh (dom σ)) in *.
  set (output_frame := fresh (dom (<[frame := pixels]> σ))) in *.
  exists frame, output_frame. split; [done|]. rewrite <- Ht. split; [|split].
  - rewrite !omap_app.
    rewrite (updates_read update_target (fun _ => Some frame)) by done.
    assert (Hboxes : omap update_target
                       (concat (imap (box_events output_frame)
                                     (survivors 0 ts (update it))))
                     = concat (imap (fun _ _ => [])
                                    (survivors 0 ts (update it)))).
    { exact (box_events_read update_target (fun _ _ => []) output_frame
               ltac:(by intros k [text [[[x y] w] h] col]) 0
               (survivors 0 ts (update it))). }
    rewrite Hboxes, concat_imap_nil by exact 0%nat. simpl. rewrite app_nil_r.
    clear. induction ts as [|tr ts IH]; [done|]. simpl. by f_equal.
  - rewrite !omap_app.
    rewrite (updates_read output_target (fun _ => None)) by done.
    rewrite omap_nothing. simpl. apply Forall_app. split.
    + apply boxes_target.
    + by repeat constructor.
  - do 2 (rewrite lookup_insert_ne by (intros Heq; by apply Hfo)).
    apply lookup_insert_eq.
Qed.

(** X20. ESC in the tracker loop: the frame of that pass is still
    drawn, shown and written to the output file, then the loop ends
    without "End of video.", the rest of the stream is not read, and
    the script closes the windows, releases the writer and prints
    "Tracking ended.". *)
Theorem esc_ends_tracker_loop (first pixels : ndarray pixel) (roi : bbox)
    σ σ' (roi_image : loc) (pre rest : list (@pass pixel)) (it : @pass pixel)
    t0 t :
  startup (Some first) roi = (t0, Ok (σ, roi_image)) →
  passes trackers roi_image σ pre = Some (t, σ') →
  read it = Some pixels → esc_pressed (wait_key it) = true →
  ∃ t1 output_frame,
    body trackers roi_image σ' it = (t1, Ok Break)
    ∧ omap written t1 = [output_frame]
    ∧ omap printed t1 = []
    ∧ main (Some first) roi (pre ++ it :: rest)
      = (t0 ++ t ++ t1 ++ [DestroyAllWindows; WriterRelease;
                           Print "Tracking ended."], Ok tt)
    ∧ omap rectangle_drawn t1
      = box_corners <$> survivors 0 trackers (update it)
    ∧ omap label_drawn t1
      = imap (fun k b => (box_tracker b, label_org (box_bbox b) (Z.of_nat k)))
             (survivors 0 trackers (update it))
    ∧ Imshow output_frame ∈ t1.
Proof.
  intros Hstart Hpre Hread Hesc.
  destruct roi as [[[rx ry] rw] rh].
  destruct (startup_Ok first rx ry rw rh) as (t0' & σ0 & roi0 & Hs & Hroi).
  rewrite Hstart in Hs. injection Hs as _ <- <-.
  pose proof (passes_keep_roi _ _ _ _ _ _ _ Hroi Hpre) as Hroi'.
  destruct (body_frame rectangle putText trackers roi_image σ' it pixels _ Hread Hroi')
    as (out & _ & _ & _ & _ & Hbody).
  destruct (frame_trace_read trackers (fresh (dom σ'))
              (fresh (dom (<[fresh (dom σ') := pixels]> σ')))
              (survivors 0 trackers (update it)) _ (esc_tail (wait_key it)))
    as (Hprinted & _ & Hboxes & Hlabels & Hwritten).
  rewrite Hesc in Hbody, Hprinted, Hboxes, Hlabels, Hwritten.
  eexists _, _. split; [exact Hbody|]. split; [exact Hwritten|].
  split; [exact Hprinted|]. split.
  { unfold TrackerCompare.main. rewrite Hstart, bind_unfold, bind_Ok.
    cbn [fst snd]. rewrite (tracker_loop_after_passes _ _ _ _ _ _ _ Hpre).
    cbn [loop]. rewrite Hbody. simpl. do 2 f_equal.
    by rewrite app_nil_r, <- app_assoc. }
  split; [exact Hboxes|]. split; [exact Hlabels|].
  rewrite !elem_of_app. right. right. left. left.
Qed.

(** X21. Once the first frame is read the script cannot end on an
    exception of its own: whatever rectangle was selected, whatever the
    frames, the tracker replies and the keys, it ends normally, and the
    last thing it does is print "Tracking ended.". *)
Theorem tracker_script_ends_normally (first : ndarray pixel) (roi : bbox)
    (stream : list (@pass pixel)) :
  ∃ t, main (Some first) roi stream = (t ++ [Print "Tracking ended."], Ok tt).
Proof.
  destruct roi as [[[rx ry] rw] rh].
  destruct (startup_Ok first rx ry rw rh) as (t0 & σ & roi_image & Hs & Hroi).
  destruct (tracker_loop_Ok trackers roi_image σ stream _ Hroi) as [t Ht].
  unfold TrackerCompare.main. rewrite Hs, bind_unfold, bind_Ok.
  cbn [fst snd]. rewrite Ht. simpl.
  exists (t0 ++ t ++ [DestroyAllWindows; WriterRelease]).
  by rewrite <- !app_assoc.
Qed.

End TrackerCompareMore.

(** ** The further properties on worked inputs *)

Lemma demo_first_well_shaped : well_shaped demo_first.
Proof. repeat constructor. Qed.

Lemma demo_empty_well_shaped : well_shaped demo_empty.
Proof. constructor. Qed.

Lemma flow_reference_lags_five_frames_witness :
  ∃ f rest,
    OpticalFlow.pop_reference (snd flow_seven_run) = Ok (Some (S f), rest).
Proof.
  assert (Hrun : OpticalFlow.passes S id [] flow_seven
                 = Some (fst flow_seven_run, snd flow_seven_run))
    by (vm_compute; reflexivity).
  destruct (flow_reference_lags_five_frames S id _ _ _ Hrun)
    as (frames & Hall & _ & Href).
  destruct Href as (f & rest & _ & Hpop).
  { rewrite <- (Forall2_length _ _ _ Hall). vm_compute. lia. }
  exists f, rest. exact Hpop.
Defined.

Lemma filling_pass_draws_all_corners_witness :
  OpticalFlow.body S id [] (demo_pass 1)
  = ([OpticalFlow.Circle (3, 4) 5 (0, 0, 255); OpticalFlow.Imshow;
      OpticalFlow.Sleep], Ok (Next [2%nat])).
Proof.
  assert (Hshort : (length (@nil nat) < OpticalFlow.frames_to_calc)%nat)
    by (vm_compute; lia).
  exact (filling_pass_draws_all_corners S id [] (demo_pass 1) 1%nat [(3, 4)]
           eq_refl eq_refl Hshort).
Defined.

Lemma lost_flow_keeps_all_corners_witness :
  OpticalFlow.body S id [1; 2; 3; 4; 5]%nat (lost_flow_pass 6)
  = ([OpticalFlow.CalcOpticalFlowPyrLK 7%nat 1%nat (Some [(3, 4); (5, 6)]);
      OpticalFlow.Circle (3, 4) 5 (0, 0, 255);
      OpticalFlow.Circle (5, 6) 5 (0, 0, 255);
      OpticalFlow.Imshow; OpticalFlow.Sleep],
     Ok (Next [2; 3; 4; 5; 7]%nat)).
Proof.
  exact (lost_flow_keeps_all_corners S id [1; 2; 3; 4; 5]%nat [2; 3; 4; 5]%nat
           (lost_flow_pass 6) 6%nat 1%nat [(3, 4); (5, 6)]
           eq_refl eq_refl eq_refl eq_refl).
Defined.

Lemma untracked_points_draw_nothing_witness :
  OpticalFlow.body S id [1; 2; 3; 4; 5]%nat (untracked_pass 6)
  = ([OpticalFlow.CalcOpticalFlowPyrLK 7%nat 1%nat (Some [(3, 4); (5, 6)]);
      OpticalFlow.Imshow; OpticalFlow.Sleep],
     Ok (Next [2; 3; 4; 5; 7]%nat)).
Proof.
  assert (Hnone : Forall (fun s => s ≠ 1)
                    (OpticalFlow.flow_status (untracked_pass 6))).
  { simpl. repeat (constructor; [discriminate|]). constructor. }
  exact (untracked_points_draw_nothing S id [1; 2; 3; 4; 5]%nat [2; 3; 4; 5]%nat
           (untracked_pass 6) 6%nat 1%nat [(3, 4); (5, 6)] [(1, 2); (7, 8)]
           eq_refl eq_refl eq_refl eq_refl eq_refl eq_refl Hnone).
Defined.

Lemma esc_ends_flow_loop_witness :
  OpticalFlow.main S id (flow_prefix ++ esc_pass 6 :: flow_suffix)
  = (fst flow_prefix_run ++ flow_esc_step
       ++ [OpticalFlow.DestroyAllWindows; OpticalFlow.Print "Tracking ended."],
     Ok tt).
Proof.
  assert (Hpre : OpticalFlow.passes S id [] flow_prefix
                 = Some (fst flow_prefix_run, snd flow_prefix_run))
    by (vm_compute; reflexivity).
  assert (Hbody : OpticalFlow.body S id (snd flow_prefix_run) (esc_pass 6)
                  = (flow_esc_step, Ok Break))
    by (vm_compute; reflexivity).
  destruct (esc_ends_flow_loop S id flow_prefix flow_suffix (esc_pass 6)
              (snd flow_prefix_run) (fst flow_prefix_run) flow_esc_step Break
              6%nat Hpre eq_refl eq_refl Hbody) as (_ & _ & Hmain).
  exact Hmain.
Defined.

Lemma raising_pass_skips_cleanup_witness :
  OpticalFlow.main S id (flow_prefix ++ null_corners_pass :: flow_suffix)
  = (fst flow_prefix_run ++ [OpticalFlow.CalcOpticalFlowPyrLK 2%nat 2%nat None],
     Raise (TypeError "'NoneType' object is not iterable")).
Proof.
  assert (Hpre : OpticalFlow.passes S id [] flow_prefix
                 = Some (fst flow_prefix_run, snd flow_prefix_run))
    by (vm_compute; reflexivity).
  assert (Hbody : OpticalFlow.body S id (snd flow_prefix_run) null_corners_pass
                  = ([OpticalFlow.CalcOpticalFlowPyrLK 2%nat 2%nat None],
                     Raise (TypeError "'NoneType' object is not iterable")))
    by (vm_compute; reflexivity).
  exact (raising_pass_skips_cleanup S id flow_prefix flow_suffix
           null_corners_pass (snd flow_prefix_run) (fst flow_prefix_run)
           _ _ Hpre Hbody).
Defined.

Lemma arrow_colours_repeat_after_100_witness :
  ∃ col,
    OpticalFlow.show_lines_from (gray := nat) id flow_palette 0
      many_points many_points !! (2 * 0)%nat
    = Some (OpticalFlow.ArrowedLine (0, 0) (0, 0) col)
    ∧ OpticalFlow.show_lines_from (gray := nat) id flow_palette 0
        many_points many_points !! (2 * (0 + 100))%nat
      = Some (OpticalFlow.ArrowedLine (100, 0) (100, 0) col).
Proof.
  assert (H0 : many_points !! 0%nat = Some (0, 0)) by (vm_compute; reflexivity).
  assert (H100 : many_points !! (0 + 100)%nat = Some (100, 0))
    by (vm_compute; reflexivity).
  exact (arrow_colours_repeat_after_100 (gray := nat) id flow_palette
           many_points many_points 0 (0, 0) (0, 0) (100, 0) (100, 0)
           H0 H0 H100 H100).
Defined.

Lemma append_after_pop_keeps_all_witness :
  deque_append OpticalFlow.frames_to_calc [2; 3; 4; 5]%nat 9%nat
  = [2; 3; 4; 5]%nat ++ [9%nat]
  ∧ (Some 1%nat = None
     ↔ (length [1; 2; 3; 4; 5]%nat < OpticalFlow.frames_to_calc)%nat).
Proof.
  assert (Hlen : (length [1; 2; 3; 4; 5]%nat ≤ OpticalFlow.frames_to_calc)%nat)
    by (vm_compute; lia).
  exact (append_after_pop_keeps_all [1; 2; 3; 4; 5]%nat [2; 3; 4; 5]%nat
           (Some 1%nat) 9%nat Hlen eq_refl).
Defined.

Lemma overlay_at_origin_never_fails_witness :
  ∃ out,
    overlay_image demo_store 1%positive 3%positive 0 0
    = Ok (<[1%positive := out]> demo_store, 1%positive)
    ∧ height out = height demo_background ∧ width out = width demo_background.
Proof.
  exact (overlay_at_origin_never_fails demo_store 1%positive 3%positive
           demo_background demo_wide eq_refl eq_refl).
Defined.

Lemma overlay_empty_foreground_is_noop_witness :
  overlay_image demo_store_empty 1%positive 4%positive 2 1
  = Ok (demo_store_empty, 1%positive).
Proof.
  apply (overlay_empty_foreground_is_noop demo_store_empty 1%positive 4%positive
           demo_background demo_empty 2 1 eq_refl eq_refl
           demo_background_well_shaped demo_empty_well_shaped);
    [left; reflexivity | vm_compute; split; discriminate
     | vm_compute; split; discriminate].
Defined.

Lemma overlay_twice_is_once_witness :
  overlay_pixels demo_pasted demo_foreground 3 2 = Ok demo_pasted.
Proof.
  apply (overlay_twice_is_once demo_background demo_foreground 3 2 demo_pasted
           demo_background_well_shaped demo_foreground_well_shaped);
    [vm_compute; split; discriminate | vm_compute; split; discriminate
     | reflexivity].
Defined.

Lemma overlay_covering_foreground_witness :
  ∃ out,
    overlay_pixels demo_foreground demo_background 0 0 = Ok out
    ∧ ∀ r c : nat,
        (r < height demo_foreground)%nat → (c < width demo_foreground)%nat →
        pixel_at out r c = pixel_at demo_background r c
        ∧ is_Some (pixel_at out r c).
Proof.
  apply (overlay_covering_foreground demo_foreground demo_background
           demo_foreground_well_shaped demo_background_well_shaped);
    vm_compute; lia.
Defined.

Lemma roi_snapshot_fills_top_left_witness :
  ∃ out,
    overlay_pixels demo_background (getslice demo_first 1 (1 + 2) 1 (1 + 2)) 0 0
    = Ok out
    ∧ ∀ r c : nat,
        (r < height demo_background)%nat → (c < width demo_background)%nat →
        pixel_at out r c
        = if (Z.of_nat r <? 2) && (Z.of_nat c <? 2)
          then pixel_at demo_first (Z.to_nat 1 + r) (Z.to_nat 1 + c)
          else pixel_at demo_background r c.
Proof.
  apply (roi_snapshot_fills_top_left demo_first demo_background 1 1 2 2
           demo_first_well_shaped demo_background_well_shaped);
    vm_compute; discriminate.
Defined.

Lemma roi_crop_fits_frame_witness :
  well_shaped (getslice demo_first (-1) (-1 + 10) 2 (2 + 7))
  ∧ (height (getslice demo_first (-1) (-1 + 10) 2 (2 + 7)) ≤ height demo_first)%nat
  ∧ (width (getslice demo_first (-1) (-1 + 10) 2 (2 + 7)) ≤ width demo_first)%nat.
Proof.
  exact (roi_crop_fits_frame demo_first 2 (-1) 7 10 demo_first_well_shaped).
Defined.

Lemma tracker_passes_keep_store_witness :
  (∀ l, is_Some (fst (snd tracker_start) !! l) →
        snd tracker_prefix_run !! l = fst (snd tracker_start) !! l)
  ∧ size (snd tracker_prefix_run)
    = (size (fst (snd tracker_start)) + 2 * length tracker_prefix)%nat.
Proof.
  assert (Hroi : fst (snd tracker_start) !! snd (snd tracker_start)
                 = Some tracker_roi_pixels) by (vm_compute; reflexivity).
  assert (Hrun : TrackerCompare.passes demo_rectangle demo_putText TrackerCompare.trackers
                   (snd (snd tracker_start)) (fst (snd tracker_start))
                   tracker_prefix
                 = Some (fst tracker_prefix_run, snd tracker_prefix_run))
    by (vm_compute; reflexivity).
  exact (tracker_passes_keep_store demo_rectangle demo_putText
              TrackerCompare.trackers
           (snd (snd tracker_start)) (fst (snd tracker_start))
           (snd tracker_prefix_run) tracker_prefix tracker_roi_pixels
           (fst tracker_prefix_run) Hroi Hrun).
Defined.

Lemma trackers_see_unannotated_frame_witness :
  ∃ frame output_frame,
    frame ≠ output_frame
    ∧ omap update_target (fst tracker_step)
      = replicate (length TrackerCompare.trackers) frame
    ∧ Forall (fun l => l = output_frame) (omap output_target (fst tracker_step))
    ∧ snd tracker_step !! frame = Some (demo_frame 1).
Proof.
  assert (Hroi : fst (snd tracker_start) !! snd (snd tracker_start)
                 = Some tracker_roi_pixels) by (vm_compute; reflexivity).
  assert (Hbody : TrackerCompare.body demo_rectangle demo_putText TrackerCompare.trackers
                    (snd (snd tracker_start)) (fst (snd tracker_start))
                    (tracker_pass second_fails 1)
                  = (fst tracker_step, Ok (Next (snd tracker_step))))
    by (vm_compute; reflexivity).
  exact (trackers_see_unannotated_frame demo_rectangle demo_putText
              TrackerCompare.trackers
           (snd (snd tracker_start)) (fst (snd tracker_start))
           (snd tracker_step) (tracker_pass second_fails 1) (demo_frame 1)
           tracker_roi_pixels (fst tracker_step) eq_refl Hroi Hbody).
Defined.

Lemma esc_ends_tracker_loop_witness :
  ∃ t1 output_frame,
    TrackerCompare.body demo_rectangle demo_putText TrackerCompare.trackers (snd (snd tracker_start))
      (snd tracker_prefix_run) tracker_esc_pass = (t1, Ok Break)
    ∧ omap TrackerCompare.written t1 = [output_frame]
    ∧ omap TrackerCompare.printed t1 = []
    ∧ TrackerCompare.main demo_rectangle demo_putText (Some (demo_frame 0)) (1, 0, 2, 1)
        (tracker_prefix ++ tracker_esc_pass :: tracker_suffix)
      = (fst tracker_start ++ fst tracker_prefix_run ++ t1
           ++ [TrackerCompare.DestroyAllWindows; TrackerCompare.WriterRelease;
               TrackerCompare.Print "Tracking ended."], Ok tt)
    ∧ omap TrackerCompare.rectangle_drawn t1
      = TrackerCompare.box_corners
          <$> TrackerCompare.survivors 0 TrackerCompare.trackers
                (TrackerCompare.update tracker_esc_pass)
    ∧ omap TrackerCompare.label_drawn t1
      = imap (fun k b =>
                (TrackerCompare.box_tracker b,
                 TrackerCompare.label_org (TrackerCompare.box_bbox b)
                   (Z.of_nat k)))
             (TrackerCompare.survivors 0 TrackerCompare.trackers
                (TrackerCompare.update tracker_esc_pass))
    ∧ TrackerCompare.Imshow output_frame ∈ t1.
Proof.
  assert (Hstart : TrackerCompare.startup (Some (demo_frame 0)) (1, 0, 2, 1)
                   = (fst tracker_start,
                      Ok (fst (snd tracker_start), snd (snd tracker_start))))
    by (vm_compute; reflexivity).
  assert (Hrun : TrackerCompare.passes demo_rectangle demo_putText TrackerCompare.trackers
                   (snd (snd tracker_start)) (fst (snd tracker_start))
                   tracker_prefix
                 = Some (fst tracker_prefix_run, snd tracker_prefix_run))
    by (vm_compute; reflexivity).
  exact (esc_ends_tracker_loop demo_rectangle demo_putText
           (demo_frame 0) (demo_frame 6) (1, 0, 2, 1)
           (fst (snd tracker_start)) (snd tracker_prefix_run)
           (snd (snd tracker_start)) tracker_prefix tracker_suffix
           tracker_esc_pass (fst tracker_start) (fst tracker_prefix_run)
           Hstart Hrun eq_refl eq_refl).
Defined.
